(** * geocode.py: the cascading geocode pipeline of stl-restaurants

    A shallow embedding of [src/geocode.py] and the properties of its
    cascade: address normalisation, regional batching, the global
    fallback, and the two-pass record pipeline.

    Conventions of the embedding.
    - Python values that travel through the program untyped (JSON field
      values, addresses, the fields of a [GeocodeResult]) are elements of
      [value], with Python's truthiness on them.
    - A string is a sequence of code points below 256; [str_strip] and
      [str_lower] follow Python's [str.strip] and [str.lower] on that
      range.
    - Generators and effectful procedures are resumable programs
      ([prog]): a tree of yields, network requests, sleeps and raises.
      [next], [for ... in], [yield from] and [zip] are combinators on
      them, so that code placed after a [yield] runs only when the
      generator is resumed.
    - The two geocoding services are outside the program: a [world]
      answers every request, and may look at everything that happened
      before. [run] executes a program against a world and records the
      timeline of network exchanges, sleeps and yielded items. *)

From Stdlib Require Import Ascii QArith_base.
From stdpp Require Import gmap strings list fin_maps sorting.

Local Open Scope Z_scope.
Local Open Scope string_scope.

(** ** Values and exceptions *)

(** JSON documents as [json.loads] builds them. *)
#[warnings="-register-all"]
Inductive value : Type :=
| VNone
| VBool (b : bool)
| VInt (z : Z)
| VFloat (q : Q)
| VStr (s : string)
| VList (l : list value)
| VDict (fields : list (string * value)).

(** Python truthiness: [not v] is [negb (truthy v)]. *)
Definition truthy (v : value) : bool :=
  match v with
  | VNone => false
  | VBool b => b
  | VInt z => negb (Z.eqb z 0)
  | VFloat q => negb (Z.eqb (Qnum q) 0)
  | VStr s => negb (String.eqb s EmptyString)
  | VList l => match l with [] => false | _ => true end
  | VDict fields => match fields with [] => false | _ => true end
  end.

(** The exceptions the program can raise by itself. *)
Inductive exn : Type :=
| ValueError_unpack (expected got : nat)
| ValueError_reserved (fields : gset string)
| KeyError (key : string)
| AttributeError (attr : string)
| IndexError
| RuntimeError.

Inductive fallible (A : Type) : Type :=
| Ok (a : A)
| Err (e : exn).
Arguments Ok {A} a.
Arguments Err {A} e.

#[global] Instance fallible_ret : MRet fallible := λ A a, Ok a.
#[global] Instance fallible_bind : MBind fallible := λ A B k m,
  match m with
  | Ok a => k a
  | Err e => Err e
  end.

(** ** Strings *)

Definition code (c : ascii) : N := Ascii.N_of_ascii c.

Definition chars (s : string) : list ascii := String.list_ascii_of_string s.

(** [str.isspace] on one character. *)
Definition is_whitespace (c : ascii) : bool :=
  let n := code c in
  ((9 <=? n) && (n <=? 13) || (28 <=? n) && (n <=? 32)
   || (n =? 133) || (n =? 160))%N.

(** [str.lower] on one character. *)
Definition lower_char (c : ascii) : ascii :=
  let n := code c in
  if ((65 <=? n) && (n <=? 90)
      || (192 <=? n) && (n <=? 222) && negb (n =? 215))%N
  then Ascii.ascii_of_N (n + 32) else c.

Fixpoint str_lower (s : string) : string :=
  match s with
  | EmptyString => EmptyString
  | String c rest => String (lower_char c) (str_lower rest)
  end.

Fixpoint str_lstrip (s : string) : string :=
  match s with
  | EmptyString => EmptyString
  | String c rest => if is_whitespace c then str_lstrip rest else s
  end.

Fixpoint str_rstrip (s : string) : string :=
  match s with
  | EmptyString => EmptyString
  | String c rest =>
      match str_rstrip rest with
      | EmptyString => if is_whitespace c then EmptyString else String c EmptyString
      | kept => String c kept
      end
  end.

Definition str_strip (s : string) : string := str_rstrip (str_lstrip s).

Definition comma : ascii := ","%char.

(** [partition_first sep s]: the text before and after the first [sep]. *)
Fixpoint partition_first (sep : ascii) (s : string) : option (string * string) :=
  match s with
  | EmptyString => None
  | String c rest =>
      if Ascii.eqb c sep then Some (EmptyString, rest)
      else match partition_first sep rest with
           | Some (before, after) => Some (String c before, after)
           | None => None
           end
  end.

(** [s.split(sep, 1)] for a one-character separator. *)
Definition str_split1 (sep : ascii) (s : string) : list string :=
  match partition_first sep s with
  | Some (before, after) => [before; after]
  | None => [s]
  end.

(** [v.split(sep, 1)]: only strings have the method. *)
Definition split1 (sep : ascii) (v : value) : fallible (list string) :=
  match v with
  | VStr s => Ok (str_split1 sep s)
  | _ => Err (AttributeError "split")
  end.

(** [a, b = parts] *)
Definition unpack2 {A} (parts : list A) : fallible (A * A) :=
  match parts with
  | [a; b] => Ok (a, b)
  | _ => Err (ValueError_unpack 2 (length parts))
  end.

(** ** The address normalizer *)

Definition possibly_strip_city (address : value) : fallible value :=
  parts ← split1 comma address;
  '(address_only, city) ← unpack2 parts;
  let locality := str_lower (str_strip city) in
  if String.eqb locality "st. louis" || String.eqb locality "st louis"
     || String.eqb locality "saint louis"
  then Ok (VStr address_only)
  else Ok address.

(** The addresses the normalizer accepts: strings with a comma. *)
Definition well_formed (address : value) : bool :=
  match address with
  | VStr s => bool_decide (comma ∈ chars s)
  | _ => false
  end.

(** ** Wire formats and results *)

Record GeocodeResult : Type := {
  lat : value;
  lon : value;
  geocode_score : value;
  result_name : value;
  geocoder : value;
}.

(** One entry of the ["records"] list sent to the regional service. *)
Record esri_record : Type := {
  OBJECTID : Z;
  SingleLine : value;
}.

(** One entry of the ["locations"] list the regional service answers. *)
Record esri_location : Type := {
  ResultID : Z;
  location_x : value;
  location_y : value;
  score : value;
  matched_address : value;
}.

(** One entry of the array the global service answers. *)
Record nominatim_place : Type := {
  place_lat : value;
  place_lon : value;
  importance : value;
  display_name : value;
}.

(** ** Resumable programs *)

(** What a procedure or a generator body does next. [Y] is the type of
    yielded items, [R] the type of the returned value; a generator
    returns [tt] when it is exhausted. *)
Inductive prog (Y R : Type) : Type :=
| Ret (r : R)
| Yield (y : Y) (rest : prog Y R)
| Post (payload : list esri_record) (k : list esri_location → prog Y R)
| Get (q : value) (k : list nominatim_place → prog Y R)
| Sleep (secs : Z) (rest : prog Y R)
| Raise (e : exn).
Arguments Ret {Y R} r.
Arguments Yield {Y R} y rest.
Arguments Post {Y R} payload k.
Arguments Get {Y R} q k.
Arguments Sleep {Y R} secs rest.
Arguments Raise {Y R} e.

Fixpoint prog_bind {Y A B} (k : A → prog Y B) (m : prog Y A) : prog Y B :=
  match m with
  | Ret a => k a
  | Yield y rest => Yield y (prog_bind k rest)
  | Post payload c => Post payload (λ response, prog_bind k (c response))
  | Get q c => Get q (λ response, prog_bind k (c response))
  | Sleep secs rest => Sleep secs (prog_bind k rest)
  | Raise e => Raise e
  end.

#[global] Instance prog_mret {Y} : MRet (prog Y) := λ A a, Ret a.
#[global] Instance prog_mbind {Y} : MBind (prog Y) := λ A B k m, prog_bind k m.

Definition lift {Y A} (r : fallible A) : prog Y A :=
  match r with
  | Ok a => Ret a
  | Err e => Raise e
  end.

Definition yield {Y} (y : Y) : prog Y unit := Yield y (Ret tt).
Definition requests_post {Y} (payload : list esri_record) : prog Y (list esri_location) :=
  Post payload Ret.
Definition requests_get {Y} (q : value) : prog Y (list nominatim_place) :=
  Get q Ret.
Definition time_sleep {Y} (secs : Z) : prog Y unit := Sleep secs (Ret tt).

(** [next(g)]: resume [g] up to its next [yield]. The caller receives the
    item together with the suspended generator, or [None] when [g]
    finishes without yielding (StopIteration). What [g] does on the way
    happens now; what follows the [yield] stays in the suspended
    generator. *)
Fixpoint next {Y Y' R} (g : prog Y unit)
    (k : option (Y * prog Y unit) → prog Y' R) : prog Y' R :=
  match g with
  | Ret _ => k None
  | Yield y rest => k (Some (y, rest))
  | Post payload c => Post payload (λ response, next (c response) k)
  | Get q c => Get q (λ response, next (c response) k)
  | Sleep secs rest => Sleep secs (next rest k)
  | Raise e => Raise e
  end.

(** [for x in xs: s = body(s, x)] over a list. *)
Fixpoint for_list {A Y S} (xs : list A) (s : S) (body : S → A → prog Y S) : prog Y S :=
  match xs with
  | [] => Ret s
  | x :: xs' => s' ← body s x; for_list xs' s' body
  end.

Definition for_each {A Y} (xs : list A) (body : A → prog Y unit) : prog Y unit :=
  for_list xs tt (λ _ x, body x).

(** [for y in g: s = body(s, y)] over a generator, run to exhaustion. *)
Fixpoint for_in {Y Y' S} (g : prog Y unit) (s : S) (body : S → Y → prog Y' S) : prog Y' S :=
  match g with
  | Ret _ => Ret s
  | Yield y rest => s' ← body s y; for_in rest s' body
  | Post payload c => Post payload (λ response, for_in (c response) s body)
  | Get q c => Get q (λ response, for_in (c response) s body)
  | Sleep secs rest => Sleep secs (for_in rest s body)
  | Raise e => Raise e
  end.

(** [for x, y in zip(xs, g): body(x, y)]. [zip] asks the list first and
    the generator second, and stops at the first of them that is
    exhausted. *)
Fixpoint for_zip {A Y Y'} (xs : list A) (g : prog Y unit)
    (body : A → Y → prog Y' unit) : prog Y' unit :=
  match xs with
  | [] => Ret tt
  | x :: xs' =>
      next g (λ o,
        match o with
        | None => Ret tt
        | Some (y, g') => _ ← body x y; for_zip xs' g' body
        end)
  end.

(** [sorted(l, key=key)]: stable, ascending. *)
Fixpoint insert_by {A} (key : A → Z) (x : A) (l : list A) : list A :=
  match l with
  | [] => [x]
  | y :: l' => if (key x <=? key y)%Z then x :: l else y :: insert_by key x l'
  end.

Definition sorted {A} (key : A → Z) (l : list A) : list A :=
  foldr (insert_by key) [] l.

Definition key_le {A} (key : A → Z) (a b : A) : Prop := (key a ≤ key b)%Z.

(** [itertools.batched(l, n)] for [1 <= n]: consecutive windows of [n]
    items, the last one possibly shorter. The fuel is the length of the
    list, which is more than the number of windows. *)
Fixpoint batched_go {A} (fuel : nat) (l : list A) (n : nat) : list (list A) :=
  match fuel with
  | O => []
  | S fuel' =>
      match l with
      | [] => []
      | _ => take n l :: batched_go fuel' (drop n l) n
      end
  end.

Definition batched {A} (l : list A) (n : nat) : list (list A) :=
  batched_go (length l) l n.

(** ** The regional batch geocoder *)

Fixpoint format_records (idx : Z) (addresses : list value) : fallible (list esri_record) :=
  match addresses with
  | [] => Ok []
  | address :: rest =>
      line ← possibly_strip_city address;
      records ← format_records (idx + 1) rest;
      Ok ({| OBJECTID := idx + 1; SingleLine := line |} :: records)
  end.

(** The ["records"] list of the payload; [enumerate] starts at 0. *)
Definition format_esri_batch (addresses : list value) : fallible (list esri_record) :=
  format_records 0 addresses.

Definition esri_result (location : esri_location) : GeocodeResult :=
  {| lat := location_y location;
     lon := location_x location;
     geocode_score := score location;
     result_name := matched_address location;
     geocoder := VStr "stl_esri" |}.

Definition geocode_stl_batch (addresses : list value) : prog GeocodeResult unit :=
  payload ← lift (format_esri_batch addresses);
  locations ← requests_post payload;
  for_each (sorted ResultID locations) (λ location, yield (esri_result location)).

Definition esri_batch_size : nat := 100.

Definition geocode_stl (addresses : list value) : prog GeocodeResult unit :=
  for_each (batched addresses esri_batch_size) (λ esri_batch,
    geocode_stl_batch esri_batch).

(** ** The global single-address geocoder *)

Definition nominatim_result (place : nominatim_place) : GeocodeResult :=
  {| lat := place_lat place;
     lon := place_lon place;
     geocode_score := importance place;
     result_name := display_name place;
     geocoder := VStr "openstreetmap" |}.

Definition geocode_nominatim_single {Y} (address : value) : prog Y (option GeocodeResult) :=
  data ← requests_get address;
  match data with
  | [] => Ret None
  | place :: _ => Ret (Some (nominatim_result place))
  end.

Definition geocode_nominatim_batch (addresses : list value)
    : prog (option GeocodeResult) unit :=
  for_each addresses (λ address,
    result ← geocode_nominatim_single address;
    _ ← yield result;
    time_sleep 1).

Definition geocode_nominatim (addresses : list value) : prog (option GeocodeResult) unit :=
  geocode_nominatim_batch addresses.

(** ** The cascade coordinator *)

(** The body of the loop of [geocode]. A [StopIteration] leaving [next]
    inside a generator surfaces as a [RuntimeError]. *)
Definition cascade_step (address : value) (result_stl : GeocodeResult)
    : prog (option GeocodeResult) unit :=
  if negb (truthy (result_name result_stl)) then
    next (geocode_nominatim [address]) (λ o,
      match o with
      | None => Raise RuntimeError
      | Some (result_osm, _) => yield result_osm
      end)
  else yield (Some result_stl).

Definition geocode (addresses : list value) : prog (option GeocodeResult) unit :=
  for_zip addresses (geocode_stl addresses) cascade_step.

(** ** The record pipeline *)

Definition RESERVED_FIELDS : gset string :=
  {[ "lat"; "lon"; "result_name"; "geocode_score"; "geocoder" ]}.

(** [rows[idx][key] = v] *)
Definition setitem_at (rows : list (gmap string value)) (idx : nat)
    (key : string) (v : value) : fallible (list (gmap string value)) :=
  match rows !! idx with
  | Some data => Ok (<[idx := <[key := v]> data]> rows)
  | None => Err IndexError
  end.

(** First pass, one input line, already parsed to a JSON object. *)
Definition collect (acc : list value * list (gmap string value))
    (data : gmap string value) : fallible (list value * list (gmap string value)) :=
  let '(addresses_to_geocode, output_data) := acc in
  let conflicts := RESERVED_FIELDS ∩ dom data in
  if decide (conflicts = ∅) then
    match data !! "location" with
    | Some location =>
        Ok ((addresses_to_geocode ++ [location])%list, (output_data ++ [data])%list)
    | None => Err (KeyError "location")
    end
  else Err (ValueError_reserved conflicts).

(** Second pass, one item of [enumerate(geocode(...))]. *)
Definition enrich (acc : nat * list (gmap string value))
    (result : option GeocodeResult) : fallible (nat * list (gmap string value)) :=
  let '(idx, output_data) := acc in
  match result with
  | None => Ok (S idx, output_data)
  | Some result =>
      output_data ← setitem_at output_data idx "lat" (lat result);
      output_data ← setitem_at output_data idx "lon" (lon result);
      output_data ← setitem_at output_data idx "result_name" (result_name result);
      output_data ← setitem_at output_data idx "geocode_score" (geocode_score result);
      output_data ← setitem_at output_data idx "geocoder" (geocoder result);
      Ok (S idx, output_data)
  end.

(** [main], from the parsed input lines to the records it writes. The
    loop bodies do nothing to the outside world; they can only raise. *)
Definition main (jsonl : list (gmap string value))
    : prog Empty_set (list (gmap string value)) :=
  '(addresses_to_geocode, output_data) ←
    for_list jsonl ([], []) (λ acc data, lift (collect acc data));
  '(_, output_data) ←
    for_in (geocode addresses_to_geocode) (O, output_data)
      (λ acc result, lift (enrich acc result));
  Ret output_data.

(** ** Running a program against the outside world *)

Inductive event : Type :=
| Posted (payload : list esri_record) (response : list esri_location)
| Got (q : value) (response : list nominatim_place)
| Slept (secs : Z).

(** The services: each answer may depend on everything that happened
    before the request. *)
Record world : Type := {
  esri_server : list event → list esri_record → list esri_location;
  nominatim_server : list event → value → list nominatim_place;
}.

Inductive obs (Y : Type) : Type :=
| Net (e : event)
| Emit (y : Y).
Arguments Net {Y} e.
Arguments Emit {Y} y.

Inductive outcome (R : Type) : Type :=
| Returned (r : R)
| Raised (e : exn).
Arguments Returned {R} r.
Arguments Raised {R} e.

Definition net_events {Y} (t : list (obs Y)) : list event :=
  omap (λ o, match o with Net e => Some e | Emit _ => None end) t.

Definition emitted {Y} (t : list (obs Y)) : list Y :=
  omap (λ o, match o with Net _ => None | Emit y => Some y end) t.

(** [run w past p]: the timeline of [p] and how it ends, when [past] has
    already happened. *)
Fixpoint run {Y R} (w : world) (past : list event) (p : prog Y R)
    : list (obs Y) * outcome R :=
  match p with
  | Ret r => ([], Returned r)
  | Yield y rest =>
      let '(t, o) := run w past rest in (Emit y :: t, o)
  | Post payload k =>
      let response := esri_server w past payload in
      let e := Posted payload response in
      let '(t, o) := run w (past ++ [e])%list (k response) in (Net e :: t, o)
  | Get q k =>
      let response := nominatim_server w past q in
      let e := Got q response in
      let '(t, o) := run w (past ++ [e])%list (k response) in (Net e :: t, o)
  | Sleep secs rest =>
      let e := Slept secs in
      let '(t, o) := run w (past ++ [e])%list rest in (Net e :: t, o)
  | Raise e => ([], Raised e)
  end.

(** ** Reading a timeline *)

(** The sizes of the regional requests, in the order they were sent. *)
Definition posted_sizes {Y} (t : list (obs Y)) : list nat :=
  omap (λ e, match e with Posted payload _ => Some (length payload) | _ => None end)
       (net_events t).

(** What one regional exchange leaves on the timeline of [geocode_stl]:
    the request with its answer, then the answer's results in the order
    of their identifiers. *)
Definition batch_segment (payload : list esri_record) (response : list esri_location)
    : list (obs GeocodeResult) :=
  Net (Posted payload response) :: (Emit <$> (esri_result <$> sorted ResultID response)).

(** [segment] is what [batch] leaves on the timeline when its request
    can be built. *)
Definition formatted_segment (batch : list value) (segment : list (obs GeocodeResult)) : Prop :=
  ∃ payload response,
    format_esri_batch batch = Ok payload
    ∧ length payload = length batch
    ∧ segment = batch_segment payload response.

(** The regional results of a run, in the order [geocode_stl] yields them. *)
Definition regional_results {Y} (t : list (obs Y)) : list GeocodeResult :=
  net_events t ≫= λ e,
    match e with
    | Posted _ response => esri_result <$> sorted ResultID response
    | _ => []
    end.

(** The queries sent to the global service, in order. *)
Definition global_queries {Y} (t : list (obs Y)) : list value :=
  omap (λ e, match e with Got q _ => Some q | _ => None end) (net_events t).

(** The answer of [geocode_nominatim_single] to a response. *)
Definition nominatim_answer (response : list nominatim_place) : option GeocodeResult :=
  nominatim_result <$> head response.

(** What the cascade emits for [address] paired with [result_stl], given
    the network exchanges [calls] of the run. *)
Definition cascade_output (calls : list event) (address : value)
    (result_stl : GeocodeResult) (out : option GeocodeResult) : Prop :=
  if truthy (result_name result_stl) then out = Some result_stl
  else ∃ response, Got address response ∈ calls ∧ out = nominatim_answer response.

(** The pairs the cascade consumes in a run with timeline [t]: [zip]
    pairs the addresses with the regional results as they are yielded. *)
Definition consumed_pairs {Y} (addresses : list value) (t : list (obs Y))
    : list (value * GeocodeResult) :=
  zip addresses (regional_results t).

(** The cascade's outputs and global queries on [t] are those of the
    pairs it consumed. *)
Definition cascade_follows (addresses : list value)
    (t : list (obs (option GeocodeResult))) : Prop :=
  Forall2 (λ p out, cascade_output (net_events t) p.1 p.2 out)
          (consumed_pairs addresses t) (emitted t)
  ∧ global_queries t =
      (filter (λ p, ¬ truthy (result_name p.2)) (consumed_pairs addresses t)).*1.

(** Programs that only post to the regional service and yield. *)
Fixpoint regional_only {Y R} (p : prog Y R) : Prop :=
  match p with
  | Ret _ | Raise _ => True
  | Yield _ rest => regional_only rest
  | Post _ k => ∀ response, regional_only (k response)
  | Get _ _ | Sleep _ _ => False
  end.

(** The shape of every timeline of the cascade: regional exchanges,
    regional results with a name, and global exchanges each followed at
    once by its answer. *)
Inductive cascade_shape : list (obs (option GeocodeResult)) → Prop :=
| shape_end : cascade_shape []
| shape_posted payload response t :
    cascade_shape t → cascade_shape (Net (Posted payload response) :: t)
| shape_regional result_stl t :
    truthy (result_name result_stl) →
    cascade_shape t → cascade_shape (Emit (Some result_stl) :: t)
| shape_global address response t :
    cascade_shape t →
    cascade_shape (Net (Got address response) :: Emit (nominatim_answer response) :: t).

(** A loop body that can only raise, folded over the items it gets. *)
Fixpoint fold_result {S Y} (step : S → Y → fallible S) (s : S) (ys : list Y) : fallible S :=
  match ys with
  | [] => Ok s
  | y :: ys' => s' ← step s y; fold_result step s' ys'
  end.

(** A timeline without its yielded items. *)
Definition exchanges {Y Y'} (t : list (obs Y)) : list (obs Y') := Net <$> net_events t.

(** The error of the first pass on one record, if any. *)
Definition record_error (data : gmap string value) : option exn :=
  if decide (RESERVED_FIELDS ∩ dom data = ∅) then
    match data !! "location" with
    | Some _ => None
    | None => Some (KeyError "location")
    end
  else Some (ValueError_reserved (RESERVED_FIELDS ∩ dom data)).

(** A record with the five fields of a result set, in the order of the
    second pass. *)
Definition with_result (result : GeocodeResult) (data : gmap string value)
    : gmap string value :=
  <["geocoder" := geocoder result]>
    (<["geocode_score" := geocode_score result]>
       (<["result_name" := result_name result]>
          (<["lon" := lon result]> (<["lat" := lat result]> data)))).

(** ** Sample services *)

Definition echo (matched : value → value) (record : esri_record) : esri_location :=
  {| ResultID := OBJECTID record;
     location_x := VFloat (-9019 # 100);
     location_y := VFloat (3863 # 100);
     score := VInt 100;
     matched_address := matched (SingleLine record) |}.

Definition sample_place (q : value) : nominatim_place :=
  {| place_lat := VStr "38.63";
     place_lon := VStr "-90.19";
     importance := VFloat (1 # 2);
     display_name := q |}.

(** The regional service matches every address and answers in reverse
    order of identifiers; the global service knows nothing. *)
Definition reversing_world : world :=
  {| esri_server := λ _ payload, reverse (echo id <$> payload);
     nominatim_server := λ _ _, [] |}.

(** The regional service matches nothing (empty names); the global
    service matches everything. *)
Definition unmatched_world : world :=
  {| esri_server := λ _ payload, echo (λ _, VStr EmptyString) <$> payload;
     nominatim_server := λ _ q, [sample_place q] |}.

(** The normalized lines submitted to the regional service, in order. *)
Definition submitted_lines {Y} (t : list (obs Y)) : list value :=
  net_events t ≫= λ e,
    match e with
    | Posted payload _ => SingleLine <$> payload
    | _ => []
    end.

(** ** Substrings *)

(** [s.startswith(sub)] *)
Fixpoint starts_with (sub s : string) : bool :=
  match sub, s with
  | EmptyString, _ => true
  | String a sub', String b s' => Ascii.eqb a b && starts_with sub' s'
  | String _ _, EmptyString => false
  end.

(** [sub in s] *)
Fixpoint str_contains (sub s : string) : bool :=
  starts_with sub s
  || match s with
     | EmptyString => false
     | String _ rest => str_contains sub rest
     end.

(** ** convert.py: JSON lines to CSV

    A JSON object is a [dict]: its keys in insertion order, each once.
    The output is the sequence of rows handed to the [csv] writer, a row
    being the list of its cells before they are turned into text. *)
Module convert.

Inductive error : Type :=
| StopIteration
| ValueError_fieldnames (wrong_fields : list string).

Fixpoint dict_get (d : list (string * value)) (key : string) (default : value) : value :=
  match d with
  | [] => default
  | (k, v) :: rest => if String.eqb k key then v else dict_get rest key default
  end.

Definition dict_keys (d : list (string * value)) : list string := d.*1.

(** [DictWriter._dict_to_list] with [extrasaction="raise"] and
    [restval=""]. *)
Definition dict_to_list (fieldnames : list string) (rowdict : list (string * value))
    : error + list value :=
  match filter (λ key, key ∉ fieldnames) (dict_keys rowdict) with
  | [] => inr ((λ key, dict_get rowdict key (VStr EmptyString)) <$> fieldnames)
  | wrong_fields => inl (ValueError_fieldnames wrong_fields)
  end.

(** [for line in inf: writer.writerow(json.loads(line))], from the rows
    [written] so far. *)
Fixpoint write_rows (fieldnames : list string) (written : list (list value))
    (lines : list (list (string * value))) : list (list value) * option error :=
  match lines with
  | [] => (written, None)
  | line :: rest =>
      match dict_to_list fieldnames line with
      | inr row => write_rows fieldnames (written ++ [row])%list rest
      | inl e => (written, Some e)
      end
  end.

(** [main]: the rows written, and the exception that ended the run if
    one did. [next(inf)] on an empty file raises [StopIteration]. *)
Definition main (lines : list (list (string * value))) : list (list value) * option error :=
  match lines with
  | [] => ([], Some StopIteration)
  | first_line :: rest =>
      let fieldnames := dict_keys first_line in
      let header := VStr <$> fieldnames in
      write_rows fieldnames [header] (first_line :: rest)
  end.

End convert.

(** ** restaurants.py: the spider's callbacks

    A facility is the [dict] with the five keys the code creates and
    assigns; a table row is given by the first text node of its first
    and of its second cell, when there is one. *)
Module restaurants.

Record facility : Type := {
  name : string;
  location : string;
  kind : string;
  phone_number : string;
  ward : string;
}.

Record table_row : Type := {
  td1 : option string;
  td2 : option string;
}.

(** [selector.get("").strip()] *)
Definition text_of (node : option string) : string := str_strip (default EmptyString node).

(** The body of the loop of [parse_facility]. *)
Definition read_row (f : facility) (row : table_row) : facility :=
  let key := text_of (td1 row) in
  let value := text_of (td2 row) in
  if str_contains "Facility Name" key then
    {| name := value; location := location f; kind := kind f;
       phone_number := phone_number f; ward := ward f |}
  else if str_contains "Facility Location" key then
    {| name := name f; location := value; kind := kind f;
       phone_number := phone_number f; ward := ward f |}
  else if str_contains "Facility Type" key then
    {| name := name f; location := location f; kind := value;
       phone_number := phone_number f; ward := ward f |}
  else if str_contains "Phone Number" key then
    {| name := name f; location := location f; kind := kind f;
       phone_number := value; ward := ward f |}
  else f.

Definition read_rows (rows : list table_row) (ward : string) : facility :=
  foldl read_row
    {| name := EmptyString; location := EmptyString; kind := EmptyString;
       phone_number := EmptyString; ward := ward |}
    rows.



Inductive callback : Type := ParseWard | ParseFacility.

(** [response.follow(link, callback, cb_kwargs={"ward": ward})] *)
Record request : Type := {
  href : string;
  to : callback;
  cb_ward : string;
}.

Definition parse_ward (links : list string) (ward : string) : list request :=
  links ≫= λ link,
    if str_contains "Food-FacilityHistory" link then
      [ {| href := link; to := ParseFacility; cb_ward := ward |} ]
    else if str_contains "Food-Ward-ByName" link then
      [ {| href := link; to := ParseWard; cb_ward := ward |} ]
    else [].

End restaurants.

(** * Properties *)

(** ** The address normalizer *)

Lemma partition_first_found sep s :
  sep ∈ chars s →
  ∃ before after,
    partition_first sep s = Some (before, after)
    ∧ s = before +:+ String sep after
    ∧ sep ∉ chars before.
Proof.
  induction s as [|c rest IH]; simpl.
  - intros H. by apply elem_of_nil in H.
  - intros H. destruct (Ascii.eqb c sep) eqn:Hc.
    + apply Ascii.eqb_eq in Hc as ->.
      exists EmptyString, rest. split_and!; [reflexivity..|]. apply not_elem_of_nil.
    + apply Ascii.eqb_neq in Hc.
      apply elem_of_cons in H as [->|H]; [done|].
      destruct (IH H) as (before & after & -> & Heq & Hnot).
      exists (String c before), after. split_and!.
      * reflexivity.
      * subst rest. reflexivity.
      * simpl. intros [?|?]%elem_of_cons; [congruence|done].
Qed.

Lemma partition_first_missing sep s :
  sep ∉ chars s → partition_first sep s = None.
Proof.
  induction s as [|c rest IH]; simpl; [done|].
  intros H. apply not_elem_of_cons in H as [Hne Hrest].
  destruct (Ascii.eqb c sep) eqn:Hc.
  - apply Ascii.eqb_eq in Hc. congruence.
  - by rewrite (IH Hrest).
Qed.

(** C7: an address with a comma is split at its first comma; when the
    trimmed, lower-cased locality is one of the three spellings of St.
    Louis the street part alone is returned, otherwise the address comes
    back unchanged. The four addresses of the specification behave as
    stated. *)
Theorem C7_possibly_strip_city_first_comma :
  (∀ address : string,
     comma ∈ chars address →
     ∃ street locality,
       address = (street +:+ String comma locality)
       ∧ (comma ∉ chars street)
       ∧ possibly_strip_city (VStr address) =
           Ok (if bool_decide (str_lower (str_strip locality)
                               ∈ ["st. louis"; "st louis"; "saint louis"])
               then VStr street else VStr address))
  ∧ possibly_strip_city (VStr "123 Main St, St. Louis") = Ok (VStr "123 Main St")
  ∧ possibly_strip_city (VStr "123 Main St, St Louis") = Ok (VStr "123 Main St")
  ∧ possibly_strip_city (VStr "123 Main St, Saint Louis") = Ok (VStr "123 Main St")
  ∧ possibly_strip_city (VStr "123 Main St, Springfield")
      = Ok (VStr "123 Main St, Springfield").
Proof.
  split_and!; [|reflexivity..].
  intros address Hin.
  destruct (partition_first_found _ _ Hin) as (street & locality & Hpart & Heq & Hnot).
  exists street, locality. split_and!; [done..|].
  unfold possibly_strip_city, split1, str_split1. rewrite Hpart. simpl.
  set (loc := str_lower (str_strip locality)).
  destruct (String.eqb loc "st. louis") eqn:E1; simpl.
  { apply String.eqb_eq in E1. rewrite bool_decide_eq_true_2; [done|]. rewrite E1. repeat constructor. }
  destruct (String.eqb loc "st louis") eqn:E2; simpl.
  { apply String.eqb_eq in E2. rewrite bool_decide_eq_true_2; [done|]. rewrite E2. repeat constructor. }
  destruct (String.eqb loc "saint louis") eqn:E3; simpl.
  { apply String.eqb_eq in E3. rewrite bool_decide_eq_true_2; [done|]. rewrite E3. repeat constructor. }
  apply String.eqb_neq in E1, E2, E3.
  rewrite bool_decide_eq_false_2; [done|].
  rewrite !elem_of_cons, elem_of_nil. intros [?|[?|[?|[]]]]; congruence.
Qed.

Lemma C7_possibly_strip_city_first_comma_witness :
  ∃ street locality,
    "1 Market St , ST. LOUIS " = (street +:+ String comma locality)
    ∧ (comma ∉ chars street)
    ∧ possibly_strip_city (VStr "1 Market St , ST. LOUIS ") =
        Ok (if bool_decide (str_lower (str_strip locality)
                            ∈ ["st. louis"; "st louis"; "saint louis"])
            then VStr street else VStr "1 Market St , ST. LOUIS ").
Proof.
  apply (proj1 C7_possibly_strip_city_first_comma "1 Market St , ST. LOUIS ").
  apply (bool_decide_unpack _). vm_compute. exact I.
Defined.

(** C9: an address without a comma makes the normalizer raise: the split
    has one part where two are unpacked. *)
Theorem C9_possibly_strip_city_no_comma_raises (address : string) :
  comma ∉ chars address →
  possibly_strip_city (VStr address) = Err (ValueError_unpack 2 1).
Proof.
  intros Hnone. unfold possibly_strip_city, split1, str_split1.
  by rewrite (partition_first_missing _ _ Hnone).
Qed.

Lemma C9_possibly_strip_city_no_comma_raises_witness :
  possibly_strip_city (VStr "123 Main St") = Err (ValueError_unpack 2 1).
Proof.
  apply (C9_possibly_strip_city_no_comma_raises "123 Main St").
  apply (bool_decide_unpack _). vm_compute. exact I.
Defined.

(** ** Sorting by key *)

Section sorting_by_key.
Context {A : Type} (key : A → Z).

Lemma insert_by_perm x l : insert_by key x l ≡ₚ x :: l.
Proof.
  induction l as [|y l IH]; simpl; [done|].
  destruct (key x <=? key y)%Z; [done|].
  rewrite IH. apply Permutation_swap.
Qed.

Lemma sorted_perm l : sorted key l ≡ₚ l.
Proof.
  induction l as [|x l IH]; simpl; [done|].
  unfold sorted in *. simpl. by rewrite insert_by_perm, IH.
Qed.

Lemma insert_by_sorted x l :
  StronglySorted (key_le key) l → StronglySorted (key_le key) (insert_by key x l).
Proof.
  induction 1 as [|y l Hl IH Hy]; simpl.
  - repeat constructor.
  - destruct (Z.leb_spec (key x) (key y)) as [Hxy|Hxy].
    + constructor; [by constructor|].
      constructor; [done|].
      eapply Forall_impl; [exact Hy|]. unfold key_le. intros; lia.
    + constructor; [done|].
      rewrite insert_by_perm. constructor; [|done]. unfold key_le. lia.
Qed.

Lemma sorted_strongly_sorted l : StronglySorted (key_le key) (sorted key l).
Proof.
  induction l as [|x l IH]; [constructor|].
  unfold sorted in *. simpl. by apply insert_by_sorted.
Qed.

Lemma consecutive_keys_sorted (first : Z) l :
  (∀ i x, l !! i = Some x → key x = (first + Z.of_nat i)%Z) →
  StronglySorted (key_le key) l.
Proof.
  revert first. induction l as [|y l IH]; intros first Hkeys; [constructor|].
  constructor.
  - apply (IH (first + 1)%Z). intros i x Hi.
    rewrite (Hkeys (S i) x Hi). lia.
  - apply Forall_forall. intros x [i Hi]%list_elem_of_lookup.
    unfold key_le. rewrite (Hkeys O y eq_refl), (Hkeys (S i) x Hi). lia.
Qed.

(** Sorting puts any rearrangement of consecutively numbered items back
    in the order of their numbers. *)
Lemma sorted_restores_order (first : Z) (ordered shuffled : list A) :
  (∀ i x, ordered !! i = Some x → key x = (first + Z.of_nat i)%Z) →
  shuffled ≡ₚ ordered →
  sorted key shuffled = ordered.
Proof.
  intros Hkeys Hperm.
  apply (StronglySorted_unique_strong (key_le key)).
  - intros x1 x2 Hx1 Hx2 H12 H21.
    rewrite sorted_perm, Hperm in Hx1.
    apply list_elem_of_lookup in Hx1 as [i Hi], Hx2 as [j Hj].
    unfold key_le in *.
    rewrite (Hkeys i x1 Hi), (Hkeys j x2 Hj) in *.
    assert (i = j) as -> by lia. congruence.
  - apply sorted_strongly_sorted.
  - by eapply consecutive_keys_sorted.
  - by rewrite sorted_perm.
Qed.
End sorting_by_key.

(** ** Building the request *)

Lemma format_records_spec idx addresses payload :
  format_records idx addresses = Ok payload →
  length payload = length addresses
  ∧ ∀ i address, addresses !! i = Some address →
      ∃ line, possibly_strip_city address = Ok line
        ∧ payload !! i = Some {| OBJECTID := idx + Z.of_nat i + 1; SingleLine := line |}.
Proof.
  revert idx payload. induction addresses as [|a rest IH]; intros idx payload; simpl.
  - intros [= <-]. split; [done|]. intros i address Hi. by rewrite lookup_nil in Hi.
  - destruct (possibly_strip_city a) as [line|e] eqn:Hline; simpl; [|done].
    destruct (format_records (idx + 1) rest) as [records|e] eqn:Hrest; simpl; [|done].
    intros [= <-]. destruct (IH _ _ Hrest) as [Hlen Hitems].
    split; [simpl; congruence|].
    intros [|i] address Hi; simpl in Hi.
    + injection Hi as <-. exists line. split; [done|]. simpl. do 3 f_equal. lia.
    + destruct (Hitems i address Hi) as (line' & Hl & Hp).
      exists line'. split; [done|]. simpl. rewrite Hp. do 3 f_equal. lia.
Qed.

Lemma format_records_returns idx (addresses : list value) :
  Forall (λ address, ∃ line, possibly_strip_city address = Ok line) addresses →
  ∃ payload, format_records idx addresses = Ok payload.
Proof.
  revert idx. induction addresses as [|a rest IH]; intros idx Hall; simpl; [by eexists|].
  apply Forall_cons in Hall as [[line ->] Hrest]. simpl.
  destruct (IH (idx + 1)%Z Hrest) as [records ->]. simpl. by eexists.
Qed.

(** ** Running programs *)

Lemma net_events_app {Y} (t1 t2 : list (obs Y)) :
  net_events (t1 ++ t2) = (net_events t1 ++ net_events t2)%list.
Proof. apply omap_app. Qed.

Lemma emitted_app {Y} (t1 t2 : list (obs Y)) :
  emitted (t1 ++ t2) = (emitted t1 ++ emitted t2)%list.
Proof. apply omap_app. Qed.

Lemma net_events_emit {Y} (y : Y) t : net_events (Emit y :: t) = net_events t.
Proof. done. Qed.

Lemma net_events_net {Y} e (t : list (obs Y)) : net_events (Net e :: t) = e :: net_events t.
Proof. done. Qed.

Lemma emitted_emit {Y} (y : Y) t : emitted (Emit y :: t) = y :: emitted t.
Proof. done. Qed.

Lemma emitted_net {Y} e (t : list (obs Y)) : emitted (Net e :: t) = emitted t.
Proof. done. Qed.

Lemma net_events_emits {Y} (ys : list Y) : net_events (Emit <$> ys) = [].
Proof. induction ys; [done|]. by rewrite fmap_cons, net_events_emit. Qed.

Lemma emitted_emits {Y} (ys : list Y) : emitted (Emit <$> ys) = ys.
Proof. induction ys; [done|]. rewrite fmap_cons, emitted_emit. by f_equal. Qed.

(** Sequencing: the second program starts in the past the first one
    leaves behind; a raise in the first one ends the run. *)
Lemma run_bind {Y A B} (w : world) (m : prog Y A) (k : A → prog Y B) past :
  run w past (m ≫= k) =
    match run w past m with
    | (t, Returned a) =>
        let '(t', o) := run w (past ++ net_events t)%list (k a) in ((t ++ t')%list, o)
    | (t, Raised e) => (t, Raised e)
    end.
Proof.
  unfold mbind, prog_mbind.
  revert past. induction m as [a|y rest IH|payload c IH|q c IH|secs rest IH|e];
    intros past; simpl.
  - rewrite app_nil_r. by destruct (run w past (k a)).
  - rewrite IH. destruct (run w past rest) as [t [a|e]]; [|done].
    rewrite net_events_emit.
    by destruct (run w (past ++ net_events t)%list (k a)).
  - rewrite IH.
    destruct (run w _ (c _)) as [t [a|e]]; [|done].
    rewrite net_events_net, <- app_assoc. simpl.
    by destruct (run w _ (k a)).
  - rewrite IH.
    destruct (run w _ (c _)) as [t [a|e]]; [|done].
    rewrite net_events_net, <- app_assoc. simpl.
    by destruct (run w _ (k a)).
  - rewrite IH.
    destruct (run w _ rest) as [t [a|e]]; [|done].
    rewrite net_events_net, <- app_assoc. simpl.
    by destruct (run w _ (k a)).
  - done.
Qed.

(** A loop that only yields: one item per element, nothing else. *)
Lemma run_for_each_yield {A Y} (w : world) past (f : A → Y) (xs : list A) :
  run w past (for_each xs (λ x, yield (f x))) = (Emit <$> (f <$> xs), Returned tt).
Proof.
  unfold for_each. induction xs as [|x xs IH]; simpl; [done|].
  unfold mbind, prog_mbind in *. simpl. by rewrite IH.
Qed.

(** One regional batch: the request is built, posted once, and the
    answer is yielded in the order of its identifiers. *)
Lemma run_geocode_stl_batch (w : world) past batch payload :
  format_esri_batch batch = Ok payload →
  run w past (geocode_stl_batch batch) =
    (Net (Posted payload (esri_server w past payload))
       :: (Emit <$> (esri_result <$> sorted ResultID (esri_server w past payload))),
     Returned tt).
Proof.
  intros Hfmt. unfold geocode_stl_batch. rewrite Hfmt.
  unfold mbind, prog_mbind. simpl.
  change (for_list ?xs tt ?b) with (for_each xs (λ location, yield (esri_result location))).
  by rewrite run_for_each_yield.
Qed.

Lemma run_geocode_stl_batch_raises (w : world) past batch e :
  format_esri_batch batch = Err e →
  run w past (geocode_stl_batch batch) = ([], Raised e).
Proof. intros Hfmt. unfold geocode_stl_batch. by rewrite Hfmt. Qed.

(** ** Batching *)

Lemma batched_go_lookup {A} (n fuel : nat) (l : list A) (i : nat) :
  (0 < n)%nat → (length l ≤ fuel)%nat →
  batched_go fuel l n !! i =
    if decide (i * n < length l)%nat then Some (take n (drop (i * n) l)) else None.
Proof.
  intros Hn. revert l i. induction fuel as [|fuel IH]; intros l i Hfuel.
  - destruct l; [|simpl in Hfuel; lia]. rewrite decide_False by (simpl; lia). done.
  - destruct l as [|x l'] eqn:Hl.
    { rewrite decide_False by (simpl; lia). done. }
    rewrite <- Hl in *. assert (0 < length l)%nat by (subst l; simpl; lia).
    replace (batched_go (S fuel) l n)
      with (take n l :: batched_go fuel (drop n l) n) by (by subst l).
    destruct i as [|i]; simpl.
    + rewrite decide_True by lia. done.
    + rewrite IH by (rewrite length_drop; lia).
      rewrite length_drop, drop_drop.
      destruct (decide (i * n < length l - n)%nat), (decide (n + i * n < length l)%nat);
        try lia; done.
Qed.

(** The windows of [batched]: window [i] holds the items [i * n] up to
    [i * n + n], as far as the list goes. *)
Lemma batched_lookup {A} (n : nat) (l : list A) (i : nat) :
  (0 < n)%nat →
  batched l n !! i =
    if decide (i * n < length l)%nat then Some (take n (drop (i * n) l)) else None.
Proof. intros Hn. by apply batched_go_lookup. Qed.

Lemma batched_go_concat {A} (n fuel : nat) (l : list A) :
  (0 < n)%nat → (length l ≤ fuel)%nat → concat (batched_go fuel l n) = l.
Proof.
  intros Hn. revert l. induction fuel as [|fuel IH]; intros l Hfuel.
  - destruct l; simpl in *; [done|lia].
  - destruct l as [|x l'] eqn:Hl; [done|]. rewrite <- Hl in *.
    assert (0 < length l)%nat by (subst l; simpl; lia).
    replace (batched_go (S fuel) l n)
      with (take n l :: batched_go fuel (drop n l) n) by (by subst l).
    simpl. rewrite IH by (rewrite length_drop; lia). apply take_drop.
Qed.

Lemma batched_concat {A} (n : nat) (l : list A) :
  (0 < n)%nat → concat (batched l n) = l.
Proof. intros Hn. by apply batched_go_concat. Qed.

Lemma batched_sizes {A} (n : nat) (l : list A) :
  (0 < n)%nat → Forall (λ b, 0 < length b ≤ n)%nat (batched l n).
Proof.
  intros Hn. apply Forall_lookup. intros i b Hi.
  rewrite batched_lookup in Hi by done. case_decide; [|done].
  injection Hi as <-. rewrite length_take, length_drop. lia.
Qed.

Lemma batched_elem_of {A} (n : nat) (l : list A) b x :
  (0 < n)%nat → b ∈ batched l n → x ∈ b → x ∈ l.
Proof.
  intros Hn Hb Hx. rewrite <- (batched_concat n l Hn).
  apply list_elem_of_In, in_concat. exists b. by rewrite <- !list_elem_of_In.
Qed.

(** ** The regional geocoder, batch after batch *)

Lemma run_for_each_cons {A Y} (w : world) past (x : A) xs (body : A → prog Y unit) :
  run w past (for_each (x :: xs) body) =
    match run w past (body x) with
    | (t, Returned _) =>
        let '(t', o) := run w (past ++ net_events t)%list (for_each xs body) in
        ((t ++ t')%list, o)
    | (t, Raised e) => (t, Raised e)
    end.
Proof.
  unfold for_each. simpl. rewrite run_bind.
  by destruct (run w past (body x)) as [t [[]|e]].
Qed.

Lemma net_events_batch_segment payload response :
  net_events (batch_segment payload response) = [Posted payload response].
Proof. unfold batch_segment. by rewrite net_events_net, net_events_emits. Qed.

(** When every batch can be formatted, the run is one segment per batch,
    in order, and the generator finishes. *)
Lemma run_stl_batches (w : world) (batches : list (list value)) past :
  Forall (λ batch, ∃ payload, format_esri_batch batch = Ok payload) batches →
  ∃ segments,
    run w past (for_each batches geocode_stl_batch) = (concat segments, Returned tt)
    ∧ Forall2 formatted_segment batches segments.
Proof.
  revert past. induction batches as [|batch batches IH]; intros past Hfmt.
  - exists []. split; [done|constructor].
  - apply Forall_cons in Hfmt as [[payload Hpayload] Hrest].
    rewrite run_for_each_cons, (run_geocode_stl_batch _ _ _ _ Hpayload).
    fold (batch_segment payload (esri_server w past payload)).
    destruct (IH (past ++ net_events (batch_segment payload (esri_server w past payload)))%list
                Hrest) as (segments & -> & Hsegs).
    exists (batch_segment payload (esri_server w past payload) :: segments).
    split; [done|]. constructor; [|done].
    exists payload, (esri_server w past payload). split_and!; [done| |done].
    by apply format_records_spec in Hpayload as [? _].
Qed.

(** Whatever the addresses are, every regional request on the timeline of
    [geocode_stl] was built by [format_esri_batch] from one of the
    batches. *)
Lemma stl_batches_posts (w : world) (batches : list (list value)) past e :
  e ∈ net_events (run w past (for_each batches geocode_stl_batch)).1 →
  ∃ batch payload response,
    batch ∈ batches ∧ format_esri_batch batch = Ok payload ∧ e = Posted payload response.
Proof.
  revert past. induction batches as [|batch batches IH]; intros past.
  - simpl. by intros ?%elem_of_nil.
  - rewrite run_for_each_cons.
    destruct (format_esri_batch batch) as [payload|err] eqn:Hfmt.
    + rewrite (run_geocode_stl_batch _ _ _ _ Hfmt).
      fold (batch_segment payload (esri_server w past payload)).
      destruct (run w _ (for_each batches geocode_stl_batch)) as [t' o] eqn:Hrun.
      cbn [fst]. rewrite net_events_app, net_events_batch_segment.
      intros [->%list_elem_of_singleton|Hin]%elem_of_app.
      * exists batch, payload, (esri_server w past payload). split_and!; [|done..]. left.
      * specialize (IH (past ++ net_events (batch_segment payload (esri_server w past payload)))%list).
        rewrite Hrun in IH. destruct (IH Hin) as (b & p & r & Hb & Hp & He).
        exists b, p, r. split_and!; [by right|done..].
    + rewrite (run_geocode_stl_batch_raises _ _ _ _ Hfmt). simpl. by intros ?%elem_of_nil.
Qed.

Lemma possibly_strip_city_returns (address : value) :
  well_formed address → ∃ line, possibly_strip_city address = Ok line.
Proof.
  destruct address as [| | | |s| |]; try done. simpl.
  intros Hin%bool_decide_unpack.
  destruct (partition_first_found _ _ Hin) as (street & locality & Hpart & _).
  unfold possibly_strip_city, split1, str_split1. rewrite Hpart. simpl.
  destruct (_ || _); by eexists.
Qed.

Lemma format_esri_batch_returns (batch : list value) :
  Forall well_formed batch → ∃ payload, format_esri_batch batch = Ok payload.
Proof.
  intros Hall. apply format_records_returns.
  eapply Forall_impl; [exact Hall|]. apply possibly_strip_city_returns.
Qed.

Lemma batched_well_formed (addresses : list value) :
  Forall well_formed addresses →
  Forall (λ batch, ∃ payload, format_esri_batch batch = Ok payload)
         (batched addresses esri_batch_size).
Proof.
  intros Hall. apply Forall_forall. intros batch Hbatch.
  apply format_esri_batch_returns, Forall_forall. intros address Hin.
  rewrite Forall_forall in Hall. apply Hall.
  eapply (batched_elem_of esri_batch_size); [unfold esri_batch_size; lia|done..].
Qed.

Lemma posted_sizes_app {Y} (t1 t2 : list (obs Y)) :
  posted_sizes (t1 ++ t2) = (posted_sizes t1 ++ posted_sizes t2)%list.
Proof. unfold posted_sizes. by rewrite net_events_app, omap_app. Qed.

Lemma posted_sizes_batch_segment payload response :
  posted_sizes (batch_segment payload response) = [length payload].
Proof. unfold posted_sizes. by rewrite net_events_batch_segment. Qed.

Lemma posted_sizes_segments (batches : list (list value)) segments :
  Forall2 formatted_segment batches segments →
  length (net_events (concat segments)) = length batches
  ∧ posted_sizes (concat segments) = length <$> batches.
Proof.
  induction 1 as [|batch segment batches segments (payload & response & _ & Hlen & ->) _ IH].
  - done.
  - destruct IH as (IHn & IHs).
    change (concat (?x :: ?l)) with (x ++ concat l)%list.
    rewrite net_events_app, posted_sizes_app, net_events_batch_segment,
      posted_sizes_batch_segment, IHs, Hlen.
    split; [|done]. simpl. by rewrite IHn.
Qed.

(** C4: the request of a batch numbers its addresses 1, 2, ... in order,
    whichever batch it is, and every request [geocode_stl] sends is
    numbered that way; the answer is sorted by identifier, so that any
    rearrangement of an answer that echoes the identifiers is yielded in
    the order of the batch. *)
Theorem C4_identifiers_restore_batch_order
    (w : world) (past : list event) (batch : list value)
    (payload : list esri_record) (ordered : list esri_location) :
  format_esri_batch batch = Ok payload →
  esri_server w past payload ≡ₚ ordered →
  Forall2 (λ location record, ResultID location = OBJECTID record) ordered payload →
  length payload = length batch
  ∧ (∀ i address, batch !! i = Some address →
       ∃ line, possibly_strip_city address = Ok line
         ∧ payload !! i = Some {| OBJECTID := Z.of_nat i + 1; SingleLine := line |})
  ∧ run w past (geocode_stl_batch batch) =
      (Net (Posted payload (esri_server w past payload))
         :: (Emit <$> (esri_result <$> ordered)),
       Returned tt)
  ∧ (∀ addresses past' payload' response',
       Posted payload' response' ∈ net_events (run w past' (geocode_stl addresses)).1 →
       ∀ i record, payload' !! i = Some record → OBJECTID record = Z.of_nat i + 1).
Proof.
  intros Hfmt Hperm Hecho.
  destruct (format_records_spec _ _ _ Hfmt) as [Hlen Hitems].
  split_and!.
  - done.
  - intros i address Hi. destruct (Hitems i address Hi) as (line & ? & Hp).
    exists line. split; [done|].
    by replace (Z.of_nat i + 1) with (0 + Z.of_nat i + 1) by lia.
  - rewrite (run_geocode_stl_batch _ _ _ _ Hfmt).
    rewrite (sorted_restores_order ResultID 1 ordered); [done| |done].
    intros i location Hi.
    destruct (Forall2_lookup_l _ _ _ _ _ Hecho Hi) as (record & Hrec & ->).
    assert (is_Some (batch !! i)) as [address Haddr].
    { apply lookup_lt_is_Some. rewrite <- Hlen. by eapply lookup_lt_Some. }
    destruct (Hitems i address Haddr) as (line & _ & Hp).
    rewrite Hrec in Hp. injection Hp as ->. simpl. lia.
  - intros addresses past' payload' response' Hin i record Hi.
    apply stl_batches_posts in Hin as (b & p & r & _ & Hp & [= -> ->]).
    destruct (format_records_spec _ _ _ Hp) as [Hlen' Hitems'].
    assert (is_Some (b !! i)) as [address Haddr].
    { apply lookup_lt_is_Some. rewrite <- Hlen'. by eapply lookup_lt_Some. }
    destruct (Hitems' i address Haddr) as (line & _ & Hp').
    rewrite Hi in Hp'. injection Hp' as ->. simpl. lia.
Qed.

Lemma C4_identifiers_restore_batch_order_witness :
  let batch := [VStr "1 A St, St. Louis"; VStr "2 B Ave, Clayton"; VStr "3 C Rd, st louis"] in
  let payload := [ {| OBJECTID := 1; SingleLine := VStr "1 A St" |};
                   {| OBJECTID := 2; SingleLine := VStr "2 B Ave, Clayton" |};
                   {| OBJECTID := 3; SingleLine := VStr "3 C Rd" |} ] in
  esri_server reversing_world [] payload = reverse (echo id <$> payload)
  ∧ emitted (run reversing_world [] (geocode_stl_batch batch)).1
      = esri_result <$> (echo id <$> payload).
Proof.
  intros batch payload. split; [reflexivity|].
  assert (esri_server reversing_world [] payload ≡ₚ echo id <$> payload) as Hperm
    by apply reverse_Permutation.
  assert (Forall2 (λ location record, ResultID location = OBJECTID record)
            (echo id <$> payload) payload) as Hecho
    by (repeat constructor).
  destruct (C4_identifiers_restore_batch_order reversing_world [] batch payload
              (echo id <$> payload) eq_refl Hperm Hecho) as (_ & _ & Hrun & _).
  rewrite Hrun. reflexivity.
Defined.

Lemma batched_250 {A} (l : list A) :
  length l = 250%nat → length <$> batched l esri_batch_size = [100; 100; 50]%nat.
Proof.
  intros Hlen. apply list_eq. intros i.
  rewrite list_lookup_fmap, batched_lookup by (unfold esri_batch_size; lia).
  unfold esri_batch_size. rewrite Hlen.
  destruct i as [|[|[|i]]]; (case_decide; [|try lia]); simpl; try lia;
    try (rewrite length_take, length_drop, Hlen; f_equal; lia); done.
Qed.

(** C5, as amended: when every address is a string with a comma, the
    regional geocoder cuts the addresses into consecutive windows of 100
    (the last one possibly shorter), sends exactly one request per window,
    in order, and yields all results of a window before the next request;
    250 such addresses give three requests of sizes 100, 100 and 50. *)
Theorem C5_geocode_stl_batches (w : world) (addresses : list value) :
  Forall well_formed addresses →
  let batches := batched addresses esri_batch_size in
  (∀ i, batches !! i =
          if decide (i * 100 < length addresses)%nat
          then Some (take 100 (drop (i * 100) addresses)) else None)
  ∧ ∃ segments,
      run w [] (geocode_stl addresses) = (concat segments, Returned tt)
      ∧ Forall2 formatted_segment batches segments
      ∧ length (net_events (concat segments)) = length batches
      ∧ posted_sizes (concat segments) = length <$> batches
      ∧ (length addresses = 250%nat → posted_sizes (concat segments) = [100; 100; 50]%nat).
Proof.
  intros Hwf batches. split.
  { intros i. apply (batched_lookup esri_batch_size). unfold esri_batch_size. lia. }
  destruct (run_stl_batches w batches [] (batched_well_formed _ Hwf))
    as (segments & Hrun & Hsegs).
  destruct (posted_sizes_segments _ _ Hsegs) as [Hcount Hsizes].
  exists segments. split_and!; [done..|].
  intros Hlen. rewrite Hsizes. by apply batched_250.
Qed.

Lemma C5_geocode_stl_batches_witness :
  let addresses := replicate 250 (VStr "1 Main St, St. Louis") in
  ∃ segments,
    run reversing_world [] (geocode_stl addresses) = (concat segments, Returned tt)
    ∧ posted_sizes (concat segments) = [100; 100; 50]%nat.
Proof.
  intros addresses.
  assert (Forall well_formed addresses) as Hwf.
  { apply Forall_replicate. apply (bool_decide_unpack _). vm_compute. exact I. }
  destruct (C5_geocode_stl_batches reversing_world addresses Hwf)
    as (_ & segments & Hrun & _ & _ & _ & H250).
  exists segments. split; [exact Hrun|]. apply H250. reflexivity.
Defined.

(** C5 as stated fails on addresses without a comma: for 250 of them the
    first batch raises while its request is built, and no request is
    sent at all. *)
Lemma C5_counterexample_no_request :
  let addresses := replicate 250 (VStr "1 Main St") in
  length addresses = 250%nat
  ∧ run reversing_world [] (geocode_stl addresses) = ([], Raised (ValueError_unpack 2 1))
  ∧ posted_sizes (run reversing_world [] (geocode_stl addresses)).1 ≠ [100; 100; 50]%nat.
Proof. vm_compute. split_and!; [reflexivity..|discriminate]. Qed.

(** ** The cascade *)

(** One step of the cascade, on the timeline. *)
Lemma run_cascade_step (w : world) past address result_stl :
  run w past (cascade_step address result_stl) =
    if truthy (result_name result_stl)
    then ([Emit (Some result_stl)], Returned tt)
    else ([Net (Got address (nominatim_server w past address));
           Emit (nominatim_answer (nominatim_server w past address))],
          Returned tt).
Proof.
  unfold cascade_step. destruct (truthy (result_name result_stl)); simpl; [done|].
  by destruct (nominatim_server w past address).
Qed.

Lemma regional_only_bind {Y A B} (m : prog Y A) (k : A → prog Y B) :
  regional_only m → (∀ a, regional_only (k a)) → regional_only (prog_bind k m).
Proof.
  intros Hm Hk. induction m as [a|y rest IH|payload c IH|q c IH|secs rest IH|e];
    simpl in *; auto.
Qed.

Lemma regional_only_for_list {A Y S} (xs : list A) (s : S) (body : S → A → prog Y S) :
  (∀ s x, regional_only (body s x)) → regional_only (for_list xs s body).
Proof.
  intros Hbody. revert s. induction xs as [|x xs IH]; intros s; simpl; [done|].
  apply regional_only_bind; auto.
Qed.

Lemma regional_only_geocode_stl addresses : regional_only (geocode_stl addresses).
Proof.
  apply regional_only_for_list. intros _ batch. unfold geocode_stl_batch.
  apply regional_only_bind.
  { by destruct (format_esri_batch batch). }
  intros payload. simpl. intros response.
  apply regional_only_for_list. by intros _ location.
Qed.

Lemma cascade_shape_app t1 t2 :
  cascade_shape t1 → cascade_shape t2 → cascade_shape (t1 ++ t2).
Proof.
  induction 1; intros; simpl;
    [done|apply shape_posted|apply shape_regional|apply shape_global]; auto.
Qed.

(** Zipping the addresses with any generator that only posts and yields
    gives a timeline of the cascade's shape. *)
Lemma cascade_shape_for_zip (w : world) (addresses : list value)
    (g : prog GeocodeResult unit) past :
  regional_only g →
  cascade_shape (run w past (for_zip addresses g cascade_step)).1.
Proof.
  revert g past. induction addresses as [|address addresses IH]; intros g past Hg.
  { constructor. }
  simpl. revert past.
  induction g as [[]|result_stl rest _|payload c IHg|q c _|secs rest _|e]; intros past;
    simpl in *; try done; try constructor.
  - change (prog_bind ?k ?m) with (m ≫= k). rewrite run_bind, run_cascade_step.
    destruct (truthy (result_name result_stl)) eqn:Hname.
    + destruct (run w _ (for_zip addresses rest cascade_step)) as [t o] eqn:Hrun.
      simpl. constructor; [by rewrite Hname|].
      specialize (IH rest (past ++ net_events [Emit (Some result_stl)])%list Hg).
      by rewrite Hrun in IH.
    + destruct (run w _ (for_zip addresses rest cascade_step)) as [t o] eqn:Hrun.
      simpl. constructor.
      match type of Hrun with run w ?p _ = _ => specialize (IH rest p Hg) end.
      by rewrite Hrun in IH.
  - destruct (run w _ _) as [t o] eqn:Hrun. simpl. constructor.
    specialize (IHg (esri_server w past payload) (Hg _)
                  (past ++ [Posted payload (esri_server w past payload)])%list).
    by rewrite Hrun in IHg.
Qed.

Lemma cascade_shape_no_sleep t secs : cascade_shape t → Slept secs ∉ net_events t.
Proof.
  induction 1 as [|payload response t _ IH|result_stl t _ _ IH|address response t _ IH].
  - apply not_elem_of_nil.
  - rewrite net_events_net. by intros [?|?]%elem_of_cons.
  - by rewrite net_events_emit.
  - rewrite net_events_net, net_events_emit. by intros [?|?]%elem_of_cons.
Qed.

(** C3 (the code departs from the claim): in the cascade the global
    geocoder is resumed with [next] up to its [yield] and then dropped,
    so the [time.sleep(1)] placed after the [yield] never runs. Two
    fallbacks in a row reach the global service back to back, and no
    timeline of [geocode] contains a wait at all; the same generator
    consumed by a loop does wait after every request. *)
Theorem C3_fallback_skips_the_wait :
  let a1 := VStr "1 A St, Clayton" in
  let a2 := VStr "2 B Ave, Kirkwood" in
  (∃ payload response,
     net_events (run unmatched_world [] (geocode [a1; a2])).1 =
       [Posted payload response; Got a1 [sample_place a1]; Got a2 [sample_place a2]])
  ∧ (∀ (w : world) past addresses secs,
       Slept secs ∉ net_events (run w past (geocode addresses)).1)
  ∧ net_events (run unmatched_world [] (geocode_nominatim [a1; a2])).1 =
      [Got a1 [sample_place a1]; Slept 1; Got a2 [sample_place a2]; Slept 1].
Proof.
  intros a1 a2. split_and!.
  - do 2 eexists. vm_compute. reflexivity.
  - intros w past addresses secs.
    apply cascade_shape_no_sleep, cascade_shape_for_zip, regional_only_geocode_stl.
  - vm_compute. reflexivity.
Qed.

(** ** The cascade over aligned regional answers *)

Lemma geocode_stl_batch_posts batch payload :
  format_esri_batch batch = Ok payload →
  geocode_stl_batch batch =
    Post payload (λ response,
      for_each (sorted ResultID response) (λ location, yield (esri_result location))).
Proof. intros Hfmt. unfold geocode_stl_batch. by rewrite Hfmt. Qed.

Lemma run_for_zip_stl_batch {Y} (w : world) past (x : value) xs batch batches payload
    (body : value → GeocodeResult → prog Y unit) :
  format_esri_batch batch = Ok payload →
  run w past (for_zip (x :: xs) (for_each (batch :: batches) geocode_stl_batch) body) =
    let response := esri_server w past payload in
    let e := Posted payload response in
    let '(t, o) :=
      run w (past ++ [e])%list
        (for_zip (x :: xs)
           (prog_bind (λ s, for_list batches s (λ _ b, geocode_stl_batch b))
              (for_each (sorted ResultID response) (λ location, yield (esri_result location))))
           body) in
    (Net e :: t, o).
Proof.
  intros Hfmt. unfold for_each at 1. simpl for_list.
  rewrite (geocode_stl_batch_posts _ _ Hfmt). reflexivity.
Qed.

(** A generator with items ready to be yielded serves the addresses pair
    by pair; what is left of the addresses goes on with what follows in
    the generator. *)
Lemma run_for_zip_buffered {A B Y Y'} (w : world) (K : unit → prog Y unit)
    (f : B → Y) (body : A → Y → prog Y' unit) (ys : list B) (xs : list A) past :
  run w past (for_zip xs (prog_bind K (for_each ys (λ y, yield (f y)))) body) =
  run w past (for_each (zip xs (f <$> ys)) (λ p, body p.1 p.2)
              ≫= λ _, for_zip (drop (length ys) xs) (K tt) body).
Proof.
  revert xs past. induction ys as [|y ys IH]; intros xs past.
  - rewrite run_bind. replace (zip xs (f <$> [])) with (@nil (A * Y)) by (by destruct xs).
    simpl. rewrite app_nil_r. by destruct (run w past _).
  - destruct xs as [|x xs].
    { rewrite run_bind. done. }
    rewrite run_bind, fmap_cons. simpl zip. rewrite run_for_each_cons.
    change (for_zip (x :: xs) (prog_bind K (for_each (y :: ys) (λ y0, yield (f y0)))) body)
      with (body x (f y)
            ≫= λ _, for_zip xs (prog_bind K (for_each ys (λ y0, yield (f y0)))) body).
    rewrite run_bind. cbn [fst snd].
    destruct (run w past (body x (f y))) as [t1 [[]|e]]; [|done].
    rewrite IH, run_bind. simpl drop.
    destruct (run w _ (for_each (zip xs (f <$> ys)) _)) as [t2 [[]|e]]; [|done].
    rewrite net_events_app, !app_assoc.
    destruct (run w _ (for_zip (drop (length ys) xs) (K tt) body)) as [t3 o].
    by rewrite app_assoc.
Qed.

Lemma regional_results_app {Y} (t1 t2 : list (obs Y)) :
  regional_results (t1 ++ t2) = (regional_results t1 ++ regional_results t2)%list.
Proof. unfold regional_results. by rewrite net_events_app, bind_app. Qed.

Lemma regional_results_posted {Y} payload response (t : list (obs Y)) :
  regional_results (Net (Posted payload response) :: t) =
    ((esri_result <$> sorted ResultID response) ++ regional_results t)%list.
Proof. done. Qed.

Lemma cascade_output_mono calls calls' address result_stl out :
  (∀ e, e ∈ calls → e ∈ calls') →
  cascade_output calls address result_stl out →
  cascade_output calls' address result_stl out.
Proof.
  intros Hsub. unfold cascade_output. destruct (truthy _); [done|].
  intros (response & Hin & ->). eauto.
Qed.

(** The steps of the cascade over addresses paired with regional results:
    one output per pair, and only global exchanges. *)
Lemma run_cascade_pairs (w : world) (addresses : list value)
    (results : list GeocodeResult) past :
  length addresses = length results →
  ∃ t,
    run w past (for_each (zip addresses results) (λ p, cascade_step p.1 p.2))
      = (t, Returned tt)
    ∧ Forall3 (cascade_output (net_events t)) addresses results (emitted t)
    ∧ regional_results t = [].
Proof.
  revert results past.
  induction addresses as [|a addresses IH]; intros [|r results] past Hlen;
    try discriminate.
  { exists []. split_and!; [done|constructor|done]. }
  simpl zip. rewrite run_for_each_cons. cbn [fst snd]. rewrite run_cascade_step.
  injection Hlen as Hlen.
  destruct (truthy (result_name r)) eqn:Hname.
  - destruct (IH results (past ++ net_events [Emit (Some r)])%list Hlen)
      as (t & -> & Hall & Hreg).
    exists (Emit (Some r) :: t). split_and!; [done| |done].
    rewrite net_events_emit, emitted_emit. constructor; [|done].
    unfold cascade_output. by rewrite Hname.
  - set (response := nominatim_server w past a).
    destruct (IH results
                (past ++ net_events [Net (Got a response); Emit (nominatim_answer response)])%list
                Hlen) as (t & -> & Hall & Hreg).
    exists (Net (Got a response) :: Emit (nominatim_answer response) :: t).
    split_and!; [done| |].
    + rewrite net_events_net, net_events_emit, emitted_net, emitted_emit.
      constructor.
      * unfold cascade_output. rewrite Hname. exists response. split; [left|done].
      * eapply Forall3_impl; [exact Hall|]. intros x y z.
        apply cascade_output_mono. intros e He. by right.
    + change (Net (Got a response) :: Emit (nominatim_answer response) :: t)
        with ([Net (Got a response); Emit (nominatim_answer response)] ++ t)%list.
      by rewrite regional_results_app, Hreg.
Qed.

Lemma zip_app_same_length {A B} (l1 l2 : list A) (k : list B) :
  length k = length l1 → zip (l1 ++ l2) k = zip l1 k.
Proof.
  revert k. induction l1 as [|x l1 IH]; intros [|y k] Hlen; try discriminate.
  - by destruct l2.
  - simpl. f_equal. apply IH. by injection Hlen.
Qed.

(** The cascade over whole batches, when every regional answer has as
    many entries as its request. *)
Lemma run_cascade_aligned (w : world) (batches : list (list value)) past :
  Forall (λ batch, batch ≠ [] ∧ ∃ payload, format_esri_batch batch = Ok payload) batches →
  ∀ t o,
    run w past (for_zip (concat batches) (for_each batches geocode_stl_batch) cascade_step)
      = (t, o) →
    (∀ payload response,
       Posted payload response ∈ net_events t → length response = length payload) →
    o = Returned tt
    ∧ Forall3 (cascade_output (net_events t)) (concat batches) (regional_results t) (emitted t).
Proof.
  revert past. induction batches as [|batch batches IH]; intros past Hok t o Hrun Haligned.
  { injection Hrun as <- <-. split; [done|constructor]. }
  apply Forall_cons in Hok as [[Hne [payload Hfmt]] Hok].
  destruct batch as [|x batch']; [done|].
  change (concat ((x :: batch') :: batches)) with (x :: (batch' ++ concat batches))%list in *.
  rewrite (run_for_zip_stl_batch _ _ _ _ _ _ _ _ Hfmt) in Hrun. cbn zeta in Hrun.
  set (response := esri_server w past payload) in *.
  rewrite run_for_zip_buffered in Hrun.
  destruct (format_records_spec _ _ _ Hfmt) as [Hlen _].
  destruct (run w (past ++ [Posted payload response])%list _) as [t' o'] eqn:Hinner.
  injection Hrun as <- <-.
  assert (length response = length payload) as Hresp.
  { apply Haligned. rewrite net_events_net. left. }
  assert (length (sorted ResultID response) = length (x :: batch')) as Hsorted.
  { rewrite (Permutation_length (sorted_perm ResultID response)). congruence. }
  change (x :: (batch' ++ concat batches))%list
    with ((x :: batch') ++ concat batches)%list in *.
  rewrite zip_app_same_length in Hinner by (by rewrite length_fmap).
  rewrite Hsorted, drop_app_length in Hinner.
  rewrite run_bind in Hinner.
  destruct (run_cascade_pairs w (x :: batch') (esri_result <$> sorted ResultID response)
              (past ++ [Posted payload response])%list)
    as (t1 & Hpairs & Hall1 & Hreg1); [by rewrite length_fmap|].
  rewrite Hpairs in Hinner.
  destruct (run w _ (for_zip (concat batches) _ cascade_step)) as [t2 o2] eqn:Hrest.
  injection Hinner as <- <-.
  destruct (IH _ Hok t2 o2 Hrest) as [-> Hall2].
  { intros p r Hin. apply Haligned.
    rewrite net_events_net, net_events_app. right. apply elem_of_app. by right. }
  split; [done|].
  rewrite regional_results_posted, emitted_net, regional_results_app, emitted_app,
    Hreg1, app_nil_l.
  apply Forall3_app.
  - eapply Forall3_impl; [exact Hall1|]. intros a r out.
    apply cascade_output_mono. intros e He.
    rewrite net_events_net, net_events_app. right. apply elem_of_app. by left.
  - eapply Forall3_impl; [exact Hall2|]. intros a r out.
    apply cascade_output_mono. intros e He.
    rewrite net_events_net, net_events_app. right. apply elem_of_app. by right.
Qed.

(** C1, as amended: when every address is a string with a comma and
    every regional answer has exactly one entry per submitted address,
    [geocode] finishes and emits exactly one item per address, the item at
    each position being the cascade's output for the address and the
    regional result at that position. *)
Theorem C1_geocode_one_result_per_address (w : world) (addresses : list value) :
  Forall well_formed addresses →
  let t := (run w [] (geocode addresses)).1 in
  (∀ payload response,
     Posted payload response ∈ net_events t → length response = length payload) →
  (run w [] (geocode addresses)).2 = Returned tt
  ∧ length (emitted t) = length addresses
  ∧ Forall3 (cascade_output (net_events t)) addresses (regional_results t) (emitted t).
Proof.
  intros Hwf t Haligned. subst t.
  destruct (run w [] (geocode addresses)) as [t o] eqn:Hrun. cbn [fst snd] in *.
  unfold geocode, geocode_stl in Hrun.
  assert (0 < esri_batch_size)%nat as Hsize by (unfold esri_batch_size; lia).
  rewrite <- (batched_concat esri_batch_size addresses Hsize) in Hrun at 1.
  eapply run_cascade_aligned in Hrun as [-> Hall]; [| |exact Haligned].
  - rewrite batched_concat in Hall by done.
    split_and!; [done| |done]. symmetry. by eapply Forall3_length_lr.
  - pose proof (batched_well_formed _ Hwf) as Hfmt.
    pose proof (batched_sizes esri_batch_size addresses Hsize) as Hsizes.
    rewrite Forall_forall in Hfmt, Hsizes. apply Forall_forall. intros batch Hbatch.
    split; [|by apply Hfmt].
    specialize (Hsizes batch Hbatch). destruct batch; simpl in *; [lia|done].
Qed.

Lemma C1_geocode_one_result_per_address_witness :
  let addresses := [VStr "100 S Broadway, St. Louis"; VStr "1 Main St, Springfield";
                    VStr "7 Elm Ave, saint louis"] in
  (run reversing_world [] (geocode addresses)).2 = Returned tt
  ∧ length (emitted (run reversing_world [] (geocode addresses)).1) = 3%nat.
Proof.
  intros addresses.
  assert (Forall well_formed addresses) as Hwf.
  { apply (bool_decide_unpack _). vm_compute. exact I. }
  destruct (C1_geocode_one_result_per_address reversing_world addresses Hwf)
    as (Hend & Hlen & _).
  - intros payload response Hin. vm_compute in Hin.
    apply list_elem_of_singleton in Hin. injection Hin as -> ->. reflexivity.
  - split; [exact Hend|exact Hlen].
Defined.

(** C1 as stated fails when an address has no comma: the batch raises
    while its request is built, before anything is emitted, although no
    regional answer is misaligned. *)
Lemma C1_counterexample_no_comma :
  let addresses := [VStr "100 S Broadway, St. Louis"; VStr "1 Main St"] in
  run reversing_world [] (geocode addresses) = ([], Raised (ValueError_unpack 2 1))
  ∧ (∀ payload response,
       Posted payload response ∈ net_events (run reversing_world [] (geocode addresses)).1 →
       length response = length payload)
  ∧ length (emitted (run reversing_world [] (geocode addresses)).1) ≠ length addresses.
Proof.
  intros addresses.
  assert (run reversing_world [] (geocode addresses) = ([], Raised (ValueError_unpack 2 1)))
    as Hrun by (vm_compute; reflexivity).
  rewrite Hrun. split_and!; [done| |done].
  intros payload response Hin. by apply elem_of_nil in Hin.
Qed.

(** ** The record pipeline *)

(** A loop over a list whose body can only raise leaves no trace. *)
Lemma run_for_list_lift {A Y S} (w : world) past (step : S → A → fallible S) xs s :
  run (Y:=Y) w past (for_list xs s (λ s x, lift (step s x))) =
    ([], match fold_result step s xs with Ok s' => Returned s' | Err e => Raised e end).
Proof.
  revert s. induction xs as [|x xs IH]; intros s; simpl; [done|].
  change (prog_bind ?k ?m) with (m ≫= k). rewrite run_bind.
  destruct (step s x) as [s'|e]; simpl; [|done].
  rewrite app_nil_r, IH. done.
Qed.

Lemma fold_result_cons {S Y} (step : S → Y → fallible S) s y ys :
  fold_result step s (y :: ys) = step s y ≫= λ s', fold_result step s' ys.
Proof. done. Qed.

Lemma collect_ok acc data :
  record_error data = None →
  ∃ location, data !! "location" = Some location
    ∧ collect acc data = Ok ((acc.1 ++ [location])%list, (acc.2 ++ [data])%list).
Proof.
  unfold record_error, collect. destruct acc as [addrs out].
  destruct (decide _); [|done].
  destruct (data !! "location") as [location|]; [|done]. by exists location.
Qed.

Lemma collect_err acc data e :
  record_error data = Some e → collect acc data = Err e.
Proof.
  unfold record_error, collect. destruct acc as [addrs out].
  destruct (decide _); [|by intros [= <-]].
  destruct (data !! "location"); [done|by intros [= <-]].
Qed.

(** The first pass keeps every record in order while the records are
    valid, and stops with the error of the first one that is not. *)
Lemma first_pass_ok jsonl addrs out :
  Forall (λ data, record_error data = None) jsonl →
  ∃ locations,
    Forall2 (λ data location, data !! "location" = Some location) jsonl locations
    ∧ fold_result collect (addrs, out) jsonl = Ok ((addrs ++ locations)%list, (out ++ jsonl)%list).
Proof.
  revert addrs out. induction jsonl as [|data jsonl IH]; intros addrs out Hall.
  { exists []. split; [constructor|]. simpl. by rewrite !app_nil_r. }
  apply Forall_cons in Hall as [Hdata Hall].
  destruct (collect_ok (addrs, out) data Hdata) as (location & Hloc & Hcollect).
  destruct (IH (addrs ++ [location])%list (out ++ [data])%list Hall) as (locations & Hlocs & Hfold).
  exists (location :: locations). split; [by constructor|].
  rewrite fold_result_cons, Hcollect. simpl. rewrite Hfold. by rewrite <- !app_assoc.
Qed.

Lemma first_pass_err good bad rest e acc :
  Forall (λ data, record_error data = None) good →
  record_error bad = Some e →
  fold_result collect acc (good ++ bad :: rest) = Err e.
Proof.
  revert acc. induction good as [|data good IH]; intros acc Hgood Hbad.
  - simpl app. by rewrite fold_result_cons, (collect_err _ _ _ Hbad).
  - apply Forall_cons in Hgood as [Hdata Hgood].
    destruct (collect_ok acc data Hdata) as (location & _ & Hcollect).
    simpl app. rewrite fold_result_cons, Hcollect. simpl. by apply IH.
Qed.

(** Any list with an invalid record splits at its first invalid record. *)
Lemma first_invalid (jsonl : list (gmap string value)) data :
  data ∈ jsonl → record_error data ≠ None →
  ∃ good bad rest e,
    jsonl = (good ++ bad :: rest)%list
    ∧ Forall (λ data, record_error data = None) good
    ∧ record_error bad = Some e.
Proof.
  induction jsonl as [|d jsonl IH]; intros Hin Hbad.
  { by apply elem_of_nil in Hin. }
  destruct (record_error d) as [e|] eqn:Hd.
  { exists [], d, jsonl, e. split_and!; [done|constructor|done]. }
  apply elem_of_cons in Hin as [->|Hin]; [congruence|].
  destruct (IH Hin Hbad) as (good & bad & rest & e & -> & Hgood & He).
  exists (d :: good), bad, rest, e. split_and!; [done|by constructor|done].
Qed.

Lemma record_error_kinds data e :
  record_error data = Some e →
  e = KeyError "location" ∨ ∃ fields, e = ValueError_reserved fields ∧ fields ≠ ∅.
Proof.
  unfold record_error. destruct (decide _) as [|Hne].
  - destruct (data !! "location"); [done|]. intros [= <-]. by left.
  - intros [= <-]. right. eauto.
Qed.

Lemma run_main (w : world) jsonl :
  run w [] (main jsonl) =
    match fold_result collect ([], []) jsonl with
    | Err e => ([], Raised e)
    | Ok (addresses_to_geocode, output_data) =>
        let '(t, o) := run w [] (for_in (geocode addresses_to_geocode) (O, output_data)
                                   (λ acc result, lift (enrich acc result))) in
        (t, match o with
            | Returned (_, output_data) => Returned output_data
            | Raised e => Raised e
            end)
    end.
Proof.
  unfold main. rewrite run_bind, run_for_list_lift.
  destruct (fold_result collect _ jsonl) as [[addrs out]|e]; [|done].
  simpl app. rewrite run_bind.
  destruct (run w [] (for_in _ _ _)) as [t [[idx out']|e]]; [|done].
  simpl. by rewrite app_nil_r.
Qed.

Lemma main_invalid_record (w : world) jsonl good bad rest e :
  jsonl = (good ++ bad :: rest)%list →
  Forall (λ data, record_error data = None) good →
  record_error bad = Some e →
  run w [] (main jsonl) = ([], Raised e).
Proof.
  intros -> Hgood Hbad. by rewrite run_main, (first_pass_err _ _ _ e).
Qed.

Lemma record_error_reserved data field :
  field ∈ RESERVED_FIELDS → is_Some (data !! field) →
  record_error data = Some (ValueError_reserved (RESERVED_FIELDS ∩ dom data)).
Proof.
  intros Hfield Hpresent. unfold record_error.
  destruct (decide _) as [Hempty|]; [|done].
  assert (field ∈ RESERVED_FIELDS ∩ dom data) as Hin.
  { apply elem_of_intersection. split; [done|]. by apply elem_of_dom. }
  rewrite Hempty in Hin. by apply not_elem_of_empty in Hin.
Qed.

(** C6: an input record that already has one of the reserved fields makes
    the run fail in the first pass, with no exchange with any service;
    the record [{"location": "1 Main St", "lat": 0}] is rejected for its
    field [lat]. *)
Theorem C6_reserved_fields_rejected (w : world) :
  (∀ (jsonl : list (gmap string value)) data field,
     data ∈ jsonl → field ∈ RESERVED_FIELDS → is_Some (data !! field) →
     ∃ e, run w [] (main jsonl) = ([], Raised e)
          ∧ (e = KeyError "location"
             ∨ ∃ fields, e = ValueError_reserved fields ∧ fields ≠ ∅))
  ∧ run w [] (main [ {[ "location" := VStr "1 Main St"; "lat" := VInt 0 ]} ])
      = ([], Raised (ValueError_reserved {[ "lat" ]})).
Proof.
  split.
  - intros jsonl data field Hin Hfield Hpresent.
    destruct (first_invalid jsonl data Hin) as (good & bad & rest & e & Hsplit & Hgood & Hbad).
    { by rewrite (record_error_reserved _ _ Hfield Hpresent). }
    exists e. split; [by eapply main_invalid_record|by eapply record_error_kinds].
  - apply (main_invalid_record w _ [] {[ "location" := VStr "1 Main St"; "lat" := VInt 0 ]} []);
      [done|constructor|]. by vm_compute.
Qed.

Lemma C6_reserved_fields_rejected_witness :
  ∃ e, run reversing_world [] (main [ {[ "location" := VStr "1 Main St"; "lat" := VInt 0 ]} ])
         = ([], Raised e)
       ∧ (e = KeyError "location"
          ∨ ∃ fields, e = ValueError_reserved fields ∧ fields ≠ ∅).
Proof.
  apply (proj1 (C6_reserved_fields_rejected reversing_world)
           [ {[ "location" := VStr "1 Main St"; "lat" := VInt 0 ]} ]
           {[ "location" := VStr "1 Main St"; "lat" := VInt 0 ]} "lat").
  - apply list_elem_of_singleton. reflexivity.
  - apply (bool_decide_unpack _). vm_compute. exact I.
  - exists (VInt 0). vm_compute. reflexivity.
Defined.

(** C10, as amended: an input record without the [location] field makes
    the run fail in the first pass, with no exchange with any service.
    The error is the one of the first invalid record: the key lookup
    failure when the record without [location] comes first among the
    invalid records and has no reserved field, the reserved-field error
    or the key lookup failure of an earlier record otherwise. *)
Theorem C10_missing_location_aborts (w : world) (jsonl : list (gmap string value)) data :
  data ∈ jsonl → data !! "location" = None →
  ∃ e, run w [] (main jsonl) = ([], Raised e)
       ∧ (e = KeyError "location"
          ∨ ∃ fields, e = ValueError_reserved fields ∧ fields ≠ ∅)
       ∧ (∀ good rest,
            jsonl = (good ++ data :: rest)%list →
            Forall (λ d, record_error d = None) good →
            RESERVED_FIELDS ∩ dom data = ∅ →
            e = KeyError "location").
Proof.
  intros Hin Hmissing.
  assert (record_error data ≠ None) as Hinvalid.
  { unfold record_error. destruct (decide _); [by rewrite Hmissing|done]. }
  destruct (first_invalid jsonl data Hin Hinvalid)
    as (good & bad & rest & e & Hsplit & Hgood & Hbad).
  pose proof (main_invalid_record w _ _ _ _ _ Hsplit Hgood Hbad) as Hrun.
  exists e. split_and!; [done|by eapply record_error_kinds|].
  intros good' rest' Hsplit' Hgood' Hclean.
  assert (record_error data = Some (KeyError "location")) as Hdata.
  { unfold record_error. rewrite decide_True by done. by rewrite Hmissing. }
  pose proof (main_invalid_record w _ _ _ _ _ Hsplit' Hgood' Hdata) as Hrun'.
  congruence.
Qed.

Lemma C10_missing_location_aborts_witness :
  ∃ e, run reversing_world [] (main [ {[ "location" := VStr "1 Main St, St. Louis" ]};
                                     {[ "name" := VStr "Diner" ]} ])
         = ([], Raised e)
       ∧ e = KeyError "location".
Proof.
  destruct (C10_missing_location_aborts reversing_world
              [ {[ "location" := VStr "1 Main St, St. Louis" ]}; {[ "name" := VStr "Diner" ]} ]
              {[ "name" := VStr "Diner" ]}) as (e & Hrun & _ & Hkind).
  - apply list_elem_of_In. right. left. reflexivity.
  - vm_compute. reflexivity.
  - exists e. split; [exact Hrun|].
    apply (Hkind [ {[ "location" := VStr "1 Main St, St. Louis" ]} ] []).
    + reflexivity.
    + constructor; [|constructor]. vm_compute. reflexivity.
    + vm_compute. reflexivity.
Defined.

(** C10 as stated fails on a record that lacks [location] and has a
    reserved field: the run aborts in the first pass, but with the
    reserved-field error, not with a key lookup failure. *)
Lemma C10_counterexample_reserved_first :
  let data : gmap string value := {[ "lat" := VInt 0 ]} in
  data !! "location" = None
  ∧ run reversing_world [] (main [data]) = ([], Raised (ValueError_reserved {[ "lat" ]}))
  ∧ ∀ key, run reversing_world [] (main [data]) ≠ ([], Raised (KeyError key)).
Proof.
  intros data.
  assert (run reversing_world [] (main [data]) = ([], Raised (ValueError_reserved {[ "lat" ]})))
    as Hrun.
  { apply (main_invalid_record _ _ [] data []); [done|constructor|]. by vm_compute. }
  split_and!; [done|done|]. intros key. rewrite Hrun. discriminate.
Qed.

(** ** The second pass *)

(** A loop over a generator whose body can only raise: when the loop
    returns, the generator was run to its end and the body was folded
    over all its items; the timeline is the generator's, without the
    items. *)
Lemma run_for_in_returned {Y Y' S} (w : world) (step : S → Y → fallible S)
    (g : prog Y unit) past s (t : list (obs Y')) s' :
  run w past (for_in g s (λ s y, lift (step s y))) = (t, Returned s') →
  ∃ tg, run w past g = (tg, Returned tt)
        ∧ fold_result step s (emitted tg) = Ok s'
        ∧ t = exchanges tg.
Proof.
  revert past s t.
  induction g as [[]|y rest IH|payload c IH|q c IH|secs rest IH|e]; intros past s t; simpl.
  - intros [= <- <-]. by exists [].
  - change (prog_bind ?k ?m) with (m ≫= k). rewrite run_bind.
    destruct (step s y) as [s1|e] eqn:Hstep; simpl; [|done].
    rewrite app_nil_r. destruct (run w past (for_in rest s1 _)) as [t1 o1] eqn:Hrun.
    intros [= <- ->]. destruct (IH _ _ _ Hrun) as (tg & -> & Hfold & ->).
    exists (Emit y :: tg). split_and!; [done| |done].
    rewrite emitted_emit, fold_result_cons, Hstep. done.
  - destruct (run w _ (for_in (c _) s _)) as [t1 o1] eqn:Hrun.
    intros [= <- ->]. destruct (IH _ _ _ _ Hrun) as (tg & -> & Hfold & ->).
    by exists (Net (Posted payload (esri_server w past payload)) :: tg).
  - destruct (run w _ (for_in (c _) s _)) as [t1 o1] eqn:Hrun.
    intros [= <- ->]. destruct (IH _ _ _ _ Hrun) as (tg & -> & Hfold & ->).
    by exists (Net (Got q (nominatim_server w past q)) :: tg).
  - destruct (run w _ (for_in rest s _)) as [t1 o1] eqn:Hrun.
    intros [= <- ->]. destruct (IH _ _ _ Hrun) as (tg & -> & Hfold & ->).
    by exists (Net (Slept secs) :: tg).
  - done.
Qed.

Lemma setitem_at_some (rows : list (gmap string value)) idx data key v :
  rows !! idx = Some data →
  setitem_at rows idx key v = Ok (<[idx := <[key := v]> data]> rows).
Proof. intros Hdata. unfold setitem_at. by rewrite Hdata. Qed.

Lemma setitem_at_insert (rows : list (gmap string value)) idx data key v :
  (idx < length rows)%nat →
  setitem_at (<[idx := data]> rows) idx key v = Ok (<[idx := <[key := v]> data]> rows).
Proof.
  intros Hidx. unfold setitem_at.
  by rewrite list_lookup_insert_eq, list_insert_insert_eq.
Qed.

Lemma enrich_some idx (output_data : list (gmap string value)) r data :
  output_data !! idx = Some data →
  enrich (idx, output_data) (Some r) = Ok (S idx, <[idx := with_result r data]> output_data).
Proof.
  intros Hdata. pose proof (lookup_lt_Some _ _ _ Hdata) as Hidx.
  unfold enrich. cbv beta iota. rewrite (setitem_at_some _ _ _ _ _ Hdata). simpl.
  rewrite setitem_at_insert by done. simpl.
  rewrite setitem_at_insert by done. simpl.
  rewrite setitem_at_insert by done. simpl.
  rewrite setitem_at_insert by done. done.
Qed.

Lemma enrich_out_of_range idx (output_data : list (gmap string value)) r :
  output_data !! idx = None → enrich (idx, output_data) (Some r) = Err IndexError.
Proof. intros Hnone. unfold enrich, setitem_at. cbv beta iota. by rewrite Hnone. Qed.

(** The second pass, folded over the results: the record at the position
    of a present result gets its five fields, every other record stays
    as it is. *)
Lemma enrich_fold (results : list (option GeocodeResult)) idx
    (output_data : list (gmap string value)) idx' output_data' :
  fold_result enrich (idx, output_data) results = Ok (idx', output_data') →
  length output_data' = length output_data
  ∧ ∀ i data, output_data !! i = Some data →
      output_data' !! i =
        Some (match (if decide (idx ≤ i)%nat then results !! (i - idx)%nat else None) with
              | Some (Some r) => with_result r data
              | _ => data
              end).
Proof.
  revert idx output_data.
  induction results as [|result results IH]; intros idx output_data.
  { intros [= <- <-]. split; [done|]. intros i data Hi. by case_decide. }
  rewrite fold_result_cons.
  destruct result as [r|].
  - destruct (output_data !! idx) as [d|] eqn:Hd.
    2:{ by rewrite enrich_out_of_range. }
    rewrite (enrich_some _ _ _ _ Hd). simpl. intros Hfold.
    destruct (IH _ _ Hfold) as [Hlen Hitems]. rewrite length_insert in Hlen.
    split; [done|]. intros i data Hi.
    destruct (decide (i = idx)) as [->|Hne].
    + rewrite (Hitems idx (with_result r d)).
      2:{ apply list_lookup_insert_eq. by eapply lookup_lt_Some. }
      rewrite decide_False by lia. rewrite decide_True by lia.
      replace (idx - idx)%nat with O by lia. simpl. congruence.
    + rewrite (Hitems i data) by (by rewrite list_lookup_insert_ne).
      do 2 case_decide; try lia; [|done].
      by replace (i - idx)%nat with (S (i - S idx)) by lia.
  - simpl. intros Hfold. destruct (IH _ _ Hfold) as [Hlen Hitems].
    split; [done|]. intros i data Hi. rewrite (Hitems i data Hi).
    do 2 case_decide; try lia; try done.
    + by replace (i - idx)%nat with (S (i - S idx)) by lia.
    + by replace (i - idx)%nat with O by lia.
Qed.

Lemma collect_valid acc (jsonl : list (gmap string value)) s :
  fold_result collect acc jsonl = Ok s →
  Forall (λ data, record_error data = None) jsonl.
Proof.
  revert acc. induction jsonl as [|data jsonl IH]; intros acc; [constructor|].
  rewrite fold_result_cons.
  destruct (record_error data) as [e|] eqn:Hdata.
  { by rewrite (collect_err _ _ _ Hdata). }
  destruct (collect_ok acc data Hdata) as (location & _ & ->). simpl.
  intros Hfold. constructor; [done|by eapply IH].
Qed.

Lemma record_error_none data :
  record_error data = None → RESERVED_FIELDS ∩ dom data = ∅.
Proof. unfold record_error. by destruct (decide _). Qed.

Lemma with_result_dom r (data : gmap string value) :
  dom (with_result r data) = dom data ∪ RESERVED_FIELDS.
Proof.
  unfold with_result, RESERVED_FIELDS. rewrite !dom_insert_L.
  apply set_eq. intros k. rewrite !elem_of_union, !elem_of_singleton. tauto.
Qed.

Lemma with_result_preserves r (data : gmap string value) k v :
  RESERVED_FIELDS ∩ dom data = ∅ →
  data !! k = Some v → with_result r data !! k = Some v.
Proof.
  intros Hclean Hk.
  assert (k ∉ RESERVED_FIELDS) as Hnot.
  { intros Hin. assert (k ∈ RESERVED_FIELDS ∩ dom data) as Hboth.
    { apply elem_of_intersection. split; [done|]. apply elem_of_dom. eauto. }
    rewrite Hclean in Hboth. by apply not_elem_of_empty in Hboth. }
  unfold RESERVED_FIELDS in Hnot.
  rewrite !not_elem_of_union, !not_elem_of_singleton in Hnot. destruct_and!.
  unfold with_result. rewrite !lookup_insert_ne; done.
Qed.

(** C8: when the pipeline writes its output, it writes one record per
    input record, in the input order; every input field keeps its value;
    a record whose result is present gets exactly the five reserved
    fields, none of which it had, set from the result; a record whose
    result is absent is written as it was read. *)
Theorem C8_main_merges_results (w : world) (jsonl output : list (gmap string value))
    (t : list (obs Empty_set)) :
  run w [] (main jsonl) = (t, Returned output) →
  ∃ addresses results,
    Forall2 (λ data address, data !! "location" = Some address) jsonl addresses
    ∧ results = emitted (run w [] (geocode addresses)).1
    ∧ length output = length jsonl
    ∧ ∀ i data, jsonl !! i = Some data →
        ∃ data', output !! i = Some data'
          ∧ (∀ k v, data !! k = Some v → data' !! k = Some v)
          ∧ match results !! i with
            | Some (Some r) =>
                data' = with_result r data
                ∧ dom data' = dom data ∪ RESERVED_FIELDS
                ∧ RESERVED_FIELDS ∩ dom data = ∅
            | _ => data' = data
            end.
Proof.
  rewrite run_main.
  destruct (fold_result collect ([], []) jsonl) as [[addrs out0]|e] eqn:Hfirst; [|done].
  pose proof (collect_valid _ _ _ Hfirst) as Hvalid.
  destruct (first_pass_ok jsonl [] [] Hvalid) as (locations & Hlocs & Hfirst').
  rewrite Hfirst' in Hfirst. simpl in Hfirst. injection Hfirst as <- <-.
  destruct (run w [] (for_in _ _ _)) as [t' [[idx out']|e]] eqn:Hsecond; [|done].
  intros [= -> ->].
  apply run_for_in_returned in Hsecond as (tg & Hrun & Hfold & _).
  apply enrich_fold in Hfold as [Hlen Hitems].
  exists locations, (emitted tg). rewrite Hrun. split_and!; [done..|].
  intros i data Hi. specialize (Hitems i data Hi).
  rewrite decide_True, Nat.sub_0_r in Hitems by lia.
  assert (RESERVED_FIELDS ∩ dom data = ∅) as Hclean.
  { apply record_error_none. rewrite Forall_forall in Hvalid.
    apply Hvalid, list_elem_of_lookup. eauto. }
  destruct (emitted tg !! i) as [[r|]|].
  - exists (with_result r data). split_and!; [done| |done| |done].
    + intros k v. by apply with_result_preserves.
    + apply with_result_dom.
  - by exists data.
  - by exists data.
Qed.

Lemma C8_main_merges_results_witness :
  ∃ t output data',
    run reversing_world []
      (main [ {[ "location" := VStr "100 S Broadway, St. Louis"; "name" := VStr "Diner" ]} ])
      = (t, Returned output)
    ∧ output !! O = Some data'
    ∧ data' !! "name" = Some (VStr "Diner").
Proof.
  assert (∃ t output,
            run reversing_world []
              (main [ {[ "location" := VStr "100 S Broadway, St. Louis";
                         "name" := VStr "Diner" ]} ])
            = (t, Returned output)) as (t & output & Hrun).
  { do 2 eexists. vm_compute. reflexivity. }
  destruct (C8_main_merges_results _ _ _ _ Hrun) as (addresses & results & _ & _ & _ & Hitems).
  destruct (Hitems O {[ "location" := VStr "100 S Broadway, St. Louis"; "name" := VStr "Diner" ]}
              eq_refl) as (data' & Hout & Hkeep & _).
  exists t, output, data'. split_and!; [exact Hrun|exact Hout|].
  apply Hkeep. vm_compute. reflexivity.
Defined.

(** ** The pairs the cascade consumes *)

Lemma global_queries_app {Y} (t1 t2 : list (obs Y)) :
  global_queries (t1 ++ t2) = (global_queries t1 ++ global_queries t2)%list.
Proof. unfold global_queries. by rewrite net_events_app, omap_app. Qed.

Lemma zip_take_l {A B} (l : list A) (k : list B) :
  zip (take (length k) l) k = zip l k.
Proof. revert l. induction k as [|y k IH]; intros [|x l]; simpl; f_equal; auto. Qed.

Lemma run_for_zip_stl_batch_raises {Y} (w : world) past (x : value) xs batch batches e
    (body : value → GeocodeResult → prog Y unit) :
  format_esri_batch batch = Err e →
  run w past (for_zip (x :: xs) (for_each (batch :: batches) geocode_stl_batch) body)
    = ([], Raised e).
Proof.
  intros Hfmt. unfold for_each at 1. simpl for_list.
  assert (geocode_stl_batch batch = Raise e) as ->; [|done].
  unfold geocode_stl_batch. by rewrite Hfmt.
Qed.

(** The steps of the cascade over any list of pairs. *)
Lemma run_cascade_steps (w : world) (pairs : list (value * GeocodeResult)) past :
  ∃ t,
    run w past (for_each pairs (λ p, cascade_step p.1 p.2)) = (t, Returned tt)
    ∧ Forall2 (λ p out, cascade_output (net_events t) p.1 p.2 out) pairs (emitted t)
    ∧ regional_results t = []
    ∧ global_queries t = (filter (λ p, ¬ truthy (result_name p.2)) pairs).*1.
Proof.
  revert past. induction pairs as [|[a r] pairs IH]; intros past.
  { exists []. split_and!; [done|constructor|done..]. }
  rewrite run_for_each_cons. cbn [fst snd]. rewrite run_cascade_step.
  destruct (truthy (result_name r)) eqn:Hname.
  - destruct (IH (past ++ net_events [Emit (Some r)])%list) as (t & -> & Hall & Hreg & Hglobal).
    exists (Emit (Some r) :: t). split_and!; [done| |done|].
    + rewrite net_events_emit, emitted_emit. constructor; [|done].
      unfold cascade_output. simpl. by rewrite Hname.
    + rewrite filter_cons_False by (simpl; rewrite Hname; auto). exact Hglobal.
  - set (response := nominatim_server w past a).
    destruct (IH (past ++ net_events [Net (Got a response); Emit (nominatim_answer response)])%list)
      as (t & -> & Hall & Hreg & Hglobal).
    exists (Net (Got a response) :: Emit (nominatim_answer response) :: t).
    split_and!; [done| | |].
    + rewrite net_events_net, net_events_emit, emitted_net, emitted_emit.
      constructor.
      * unfold cascade_output. simpl. rewrite Hname. exists response. split; [left|done].
      * eapply Forall2_impl; [exact Hall|]. intros p out.
        apply cascade_output_mono. intros e He. by right.
    + change (Net (Got a response) :: Emit (nominatim_answer response) :: t)
        with ([Net (Got a response); Emit (nominatim_answer response)] ++ t)%list.
      by rewrite regional_results_app, Hreg.
    + rewrite filter_cons_True by (simpl; rewrite Hname; auto).
      change (Net (Got a response) :: Emit (nominatim_answer response) :: t)
        with ([Net (Got a response); Emit (nominatim_answer response)] ++ t)%list.
      rewrite global_queries_app, Hglobal. done.
Qed.

(** Whatever the services answer and however the run ends, the cascade
    follows the pairs of addresses and regional results it consumed. *)
Lemma cascade_follows_batches (w : world) (batches : list (list value))
    (addresses : list value) past :
  cascade_follows addresses
    (run w past (for_zip addresses (for_each batches geocode_stl_batch) cascade_step)).1.
Proof.
  revert addresses past. induction batches as [|batch batches IH]; intros addresses past.
  { destruct addresses; (split; [constructor|done]). }
  destruct addresses as [|x xs].
  { split; [constructor|done]. }
  destruct (format_esri_batch batch) as [payload|e] eqn:Hfmt.
  2:{ rewrite (run_for_zip_stl_batch_raises _ _ _ _ _ _ _ _ Hfmt). split; [constructor|done]. }
  rewrite (run_for_zip_stl_batch _ _ _ _ _ _ _ _ Hfmt). cbn zeta.
  set (response := esri_server w past payload).
  set (results := esri_result <$> sorted ResultID response).
  rewrite run_for_zip_buffered, run_bind. fold results.
  destruct (run_cascade_steps w (zip (x :: xs) results) (past ++ [Posted payload response])%list)
    as (t1 & -> & Hall1 & Hreg1 & Hglobal1).
  match goal with
  | |- context [run w ?p (for_zip ?rest _ cascade_step)] =>
      specialize (IH rest p); destruct (run w p (for_zip rest _ cascade_step)) as [t2 o2]
  end.
  destruct IH as [Hall2 Hglobal2]. cbn [fst] in *.
  unfold cascade_follows, consumed_pairs in *.
  rewrite regional_results_posted, regional_results_app, Hreg1, app_nil_l.
  fold results. rewrite zip_with_app_r, zip_take_l, emitted_net, emitted_app.
  replace (length results) with (length (sorted ResultID response))
    by (unfold results; by rewrite length_fmap).
  split.
  - apply Forall2_app.
    + eapply Forall2_impl; [exact Hall1|]. intros p out.
      apply cascade_output_mono. intros e He.
      rewrite net_events_net, net_events_app. right. apply elem_of_app. by left.
    + eapply Forall2_impl; [exact Hall2|]. intros p out.
      apply cascade_output_mono. intros e He.
      rewrite net_events_net, net_events_app. right. apply elem_of_app. by right.
  - change (Net (Posted payload response) :: (t1 ++ t2))%list
      with ([Net (Posted payload response)] ++ (t1 ++ t2))%list.
    rewrite !global_queries_app, filter_app, fmap_app, Hglobal1, Hglobal2. done.
Qed.

(** C2: for a pair of an address and its regional result, the cascade
    emits the regional result and asks nobody when the matched name is
    non-empty; otherwise it asks the global service once, for that
    address, and emits its answer, which is absent for an empty response.
    In every run of [geocode] the timeline is made of such steps and of
    the regional exchanges, the outputs are those of the consumed pairs in
    order, and the global queries are exactly the addresses of the pairs
    with an empty matched name, once each. *)
Theorem C2_cascade_step_policy (w : world) (past : list event)
    (address : value) (result_stl : GeocodeResult) (addresses : list value) :
  run w past (cascade_step address result_stl) =
    (if truthy (result_name result_stl)
     then ([Emit (Some result_stl)], Returned tt)
     else ([Net (Got address (nominatim_server w past address));
            Emit (nominatim_answer (nominatim_server w past address))],
           Returned tt))
  ∧ nominatim_answer [] = None
  ∧ cascade_shape (run w past (geocode addresses)).1
  ∧ cascade_follows addresses (run w past (geocode addresses)).1.
Proof.
  split_and!.
  - apply run_cascade_step.
  - done.
  - apply cascade_shape_for_zip, regional_only_geocode_stl.
  - apply cascade_follows_batches.
Qed.

(** ** Trimming *)

Lemma str_lstrip_trims s :
  ∃ l, s = (l +:+ str_lstrip s)
       ∧ Forall is_whitespace (chars l)
       ∧ ∀ c rest, str_lstrip s = String c rest → ¬ is_whitespace c.
Proof.
  induction s as [|c s (l & Heq & Hws & Hhead)].
  - exists EmptyString. split_and!; [done|constructor|done].
  - simpl. destruct (is_whitespace c) eqn:Hc.
    + exists (String c l). split_and!; [|simpl; constructor; [by rewrite Hc|done]|done].
      change (String c s = String c (l +:+ str_lstrip s)). by rewrite <- Heq.
    + exists EmptyString. split_and!; [done|constructor|].
      intros c' rest Hsame. injection Hsame as <- _. intros H. by rewrite Hc in H.
Qed.

Lemma str_rstrip_trims s :
  ∃ r, s = (str_rstrip s +:+ r)
       ∧ Forall is_whitespace (chars r)
       ∧ ∀ body c, str_rstrip s = (body +:+ String c EmptyString) → ¬ is_whitespace c.
Proof.
  induction s as [|c s (r & Heq & Hws & Hlast)].
  - exists EmptyString. split_and!; [done|constructor|]. by intros [|??] ?.
  - simpl. destruct (str_rstrip s) as [|k kept] eqn:Hkept.
    + simpl in Heq. subst s. destruct (is_whitespace c) eqn:Hc.
      * exists (String c r). split_and!; [done| |by intros [|??] ?].
        simpl. constructor; [by rewrite Hc|done].
      * exists r. split_and!; [done..|].
        intros [|b body] c'; simpl; [|by destruct body].
        intros [= <-] H. by rewrite Hc in H.
    + exists r. split_and!; [|done|].
      * change (String c s = String c (String k kept +:+ r)). by rewrite <- Heq.
      * intros [|b body] c'; simpl; [done|]. intros [= <- Hbody]. by eapply Hlast.
Qed.

(** [str.strip] removes whitespace, and only whitespace, from both ends,
    up to the first and the last character that is not whitespace. *)
Lemma str_strip_trims s :
  ∃ l r, s = (l +:+ str_strip s +:+ r)
         ∧ Forall is_whitespace (chars l)
         ∧ Forall is_whitespace (chars r)
         ∧ ∀ body c, str_strip s = (body +:+ String c EmptyString) → ¬ is_whitespace c.
Proof.
  destruct (str_lstrip_trims s) as (l & Hl & Hlws & _).
  destruct (str_rstrip_trims (str_lstrip s)) as (r & Hr & Hrws & Hlast).
  exists l, r. unfold str_strip. split_and!; [congruence|done..].
Qed.

(** ** The pipeline returns when the cascade does *)

Lemma run_for_in_fold {Y Y' S} (w : world) (step : S → Y → fallible S)
    (g : prog Y unit) past s tg og s' :
  run w past g = (tg, og) →
  fold_result step s (emitted tg) = Ok s' →
  run (Y:=Y') w past (for_in g s (λ s y, lift (step s y))) =
    (exchanges tg, match og with Returned _ => Returned s' | Raised e => Raised e end).
Proof.
  revert past s tg.
  induction g as [[]|y rest IH|payload c IH|q c IH|secs rest IH|e]; intros past s tg; simpl.
  - intros [= <- <-] [= <-]. done.
  - destruct (run w past rest) as [t1 o1] eqn:Hrun. intros [= <- <-].
    rewrite emitted_emit, fold_result_cons.
    destruct (step s y) as [s1|e] eqn:Hstep; simpl; [|done].
    intros Hfold. by rewrite (IH _ _ _ Hrun Hfold).
  - destruct (run w _ (c _)) as [t1 o1] eqn:Hrun. intros [= <- <-] Hfold.
    rewrite emitted_net in Hfold. by rewrite (IH _ _ _ _ Hrun Hfold).
  - destruct (run w _ (c _)) as [t1 o1] eqn:Hrun. intros [= <- <-] Hfold.
    rewrite emitted_net in Hfold. by rewrite (IH _ _ _ _ Hrun Hfold).
  - destruct (run w _ rest) as [t1 o1] eqn:Hrun. intros [= <- <-] Hfold.
    rewrite emitted_net in Hfold. by rewrite (IH _ _ _ Hrun Hfold).
  - intros [= <- <-] [= <-]. done.
Qed.

Lemma enrich_fold_returns (results : list (option GeocodeResult)) idx
    (output_data : list (gmap string value)) :
  (idx + length results ≤ length output_data)%nat →
  ∃ output_data',
    fold_result enrich (idx, output_data) results
      = Ok ((idx + length results)%nat, output_data').
Proof.
  revert idx output_data.
  induction results as [|result results IH]; intros idx output_data Hroom.
  { exists output_data. simpl. by rewrite Nat.add_0_r. }
  rewrite fold_result_cons. simpl length in *. destruct result as [r|].
  - destruct (lookup_lt_is_Some_2 output_data idx) as [data Hdata]; [lia|].
    rewrite (enrich_some _ _ _ _ Hdata). simpl.
    destruct (IH (S idx) (<[idx := with_result r data]> output_data)) as [out' ->].
    { rewrite length_insert. lia. }
    exists out'. do 2 f_equal. lia.
  - simpl. destruct (IH (S idx) output_data) as [out' ->]; [lia|].
    exists out'. do 2 f_equal. lia.
Qed.

(** The cascade never emits more items than it was given addresses, so
    the second pass never indexes past the records: over valid records,
    [main] ends as [geocode] does. *)
Lemma main_ends_as_geocode (w : world) (jsonl : list (gmap string value))
    (addresses : list value) tg og :
  Forall (λ data, record_error data = None) jsonl →
  Forall2 (λ data address, data !! "location" = Some address) jsonl addresses →
  run w [] (geocode addresses) = (tg, og) →
  ∃ output,
    run w [] (main jsonl) =
      (exchanges tg, match og with Returned _ => Returned output | Raised e => Raised e end).
Proof.
  intros Hvalid Hlocs Hrun.
  destruct (first_pass_ok jsonl [] [] Hvalid) as (locations & Hlocs' & Hfirst).
  assert (locations = addresses) as ->.
  { clear -Hlocs Hlocs'. revert locations Hlocs'.
    induction Hlocs as [|d a ds as' Hd _ IH]; intros ls Hls; inversion Hls; subst; [done|].
    f_equal; [congruence|auto]. }
  pose proof (cascade_follows_batches w (batched addresses esri_batch_size) addresses [])
    as [Hpairs _].
  change (for_zip addresses _ cascade_step) with (geocode addresses) in Hpairs.
  rewrite Hrun in Hpairs. cbn [fst] in Hpairs.
  apply Forall2_length in Hpairs. unfold consumed_pairs in Hpairs.
  rewrite length_zip_with in Hpairs.
  destruct (enrich_fold_returns (emitted tg) O jsonl) as [out Hfold].
  { rewrite (Forall2_length _ _ _ Hlocs). lia. }
  exists out. rewrite run_main, Hfirst. simpl app.
  rewrite (run_for_in_fold _ _ _ _ _ _ _ _ Hrun Hfold).
  by destruct og as [[]|e].
Qed.

(** * Further properties of the code *)

(** ** geocode.py: the global geocoder run to its end *)



(** ** geocode.py: one regional batch *)

Lemma insert_by_stable {A} (key : A → Z) (z : Z) x l :
  filter (λ y, key y = z) (insert_by key x l) = filter (λ y, key y = z) (x :: l).
Proof.
  induction l as [|y l IH]; simpl; [done|].
  destruct (Z.leb_spec (key x) (key y)) as [Hle|Hlt]; [done|].
  rewrite (filter_cons _ y), IH, !(filter_cons _ x), (filter_cons _ y).
  repeat case_decide; try done; lia.
Qed.

Lemma sorted_stable {A} (key : A → Z) (z : Z) l :
  filter (λ y, key y = z) (sorted key l) = filter (λ y, key y = z) l.
Proof.
  induction l as [|x l IH]; [done|].
  change (sorted key (x :: l)) with (insert_by key x (sorted key l)).
  by rewrite insert_by_stable, !(filter_cons _ x), IH.
Qed.

(** X2: a regional batch whose request can be built posts once and
    yields one result per entry of the answer, whatever identifiers the
    answer carries: the entries in ascending order of [ResultID], entries
    with the same identifier in the order of the answer. Nothing is
    dropped, added or checked against the request. *)
Theorem X2_stl_batch_yields_every_entry_sorted
    (w : world) (past : list event) (batch : list value) (payload : list esri_record) :
  format_esri_batch batch = Ok payload →
  ∃ ordered,
    run w past (geocode_stl_batch batch) =
      (Net (Posted payload (esri_server w past payload))
         :: (Emit <$> (esri_result <$> ordered)),
       Returned tt)
    ∧ ordered ≡ₚ esri_server w past payload
    ∧ StronglySorted (key_le ResultID) ordered
    ∧ ∀ id, filter (λ location, ResultID location = id) ordered
            = filter (λ location, ResultID location = id) (esri_server w past payload).
Proof.
  intros Hfmt. exists (sorted ResultID (esri_server w past payload)).
  split_and!.
  - by apply run_geocode_stl_batch.
  - apply sorted_perm.
  - apply sorted_strongly_sorted.
  - intros id. apply sorted_stable.
Qed.

Lemma X2_stl_batch_yields_every_entry_sorted_witness :
  ∃ ordered,
    ordered ≡ₚ esri_server reversing_world []
                 [ {| OBJECTID := 1; SingleLine := VStr "1 A St" |};
                   {| OBJECTID := 2; SingleLine := VStr "2 B Ave, Clayton" |} ]
    ∧ StronglySorted (key_le ResultID) ordered.
Proof.
  destruct (X2_stl_batch_yields_every_entry_sorted reversing_world []
              [VStr "1 A St, St. Louis"; VStr "2 B Ave, Clayton"]
              [ {| OBJECTID := 1; SingleLine := VStr "1 A St" |};
                {| OBJECTID := 2; SingleLine := VStr "2 B Ave, Clayton" |} ]
              eq_refl) as (ordered & _ & Hperm & Hsorted & _).
  exists ordered. split; [exact Hperm|exact Hsorted].
Defined.

(** ** geocode.py: a batch that cannot be built *)

Lemma run_stl_batches_raises (w : world) (ok : list (list value)) bad rest e past :
  Forall (λ batch, ∃ payload, format_esri_batch batch = Ok payload) ok →
  format_esri_batch bad = Err e →
  ∃ segments,
    run w past (for_each (ok ++ bad :: rest) geocode_stl_batch) = (concat segments, Raised e)
    ∧ Forall2 formatted_segment ok segments.
Proof.
  intros Hok Hbad. revert past. induction Hok as [|batch ok [payload Hfmt] _ IH]; intros past.
  - exists []. split; [|constructor].
    simpl app. by rewrite run_for_each_cons, (run_geocode_stl_batch_raises _ _ _ _ Hbad).
  - simpl app. rewrite run_for_each_cons, (run_geocode_stl_batch _ _ _ _ Hfmt).
    fold (batch_segment payload (esri_server w past payload)).
    destruct (IH (past ++ net_events (batch_segment payload (esri_server w past payload)))%list)
      as (segments & -> & Hsegs).
    exists (batch_segment payload (esri_server w past payload) :: segments).
    split; [done|]. constructor; [|done].
    exists payload, (esri_server w past payload). split_and!; [done| |done].
    by apply format_records_spec in Hfmt as [? _].
Qed.

(** X3: the regional geocoder fails fast. At the first batch whose
    request cannot be built it raises that batch's error; the batches
    before it have been posted and their results yielded, and nothing is
    posted for the failing batch or for any batch after it. *)
Theorem X3_geocode_stl_stops_at_first_bad_batch
    (w : world) (addresses : list value) (ok : list (list value))
    (bad : list value) (rest : list (list value)) (e : exn) :
  batched addresses esri_batch_size = (ok ++ bad :: rest)%list →
  Forall (λ batch, ∃ payload, format_esri_batch batch = Ok payload) ok →
  format_esri_batch bad = Err e →
  ∃ segments,
    run w [] (geocode_stl addresses) = (concat segments, Raised e)
    ∧ Forall2 formatted_segment ok segments
    ∧ length (net_events (concat segments)) = length ok.
Proof.
  intros Hsplit Hok Hbad. unfold geocode_stl. rewrite Hsplit.
  destruct (run_stl_batches_raises w ok bad rest e [] Hok Hbad) as (segments & Hrun & Hsegs).
  exists segments. split_and!; [done..|].
  by apply posted_sizes_segments in Hsegs as [? _].
Qed.

Lemma X3_geocode_stl_stops_at_first_bad_batch_witness :
  ∃ segments,
    run reversing_world []
      (geocode_stl (replicate 100 (VStr "1 Main St, St. Louis") ++ [VStr "2 Oak St"]))
      = (concat segments, Raised (ValueError_unpack 2 1))
    ∧ length (net_events (concat segments)) = 1%nat.
Proof.
  destruct (X3_geocode_stl_stops_at_first_bad_batch reversing_world
              (replicate 100 (VStr "1 Main St, St. Louis") ++ [VStr "2 Oak St"])
              [replicate 100 (VStr "1 Main St, St. Louis")] [VStr "2 Oak St"] []
              (ValueError_unpack 2 1))
    as (segments & Hrun & _ & Hcount).
  - vm_compute. reflexivity.
  - constructor; [|constructor]. apply format_esri_batch_returns, Forall_replicate.
    apply (bool_decide_unpack _). vm_compute. exact I.
  - reflexivity.
  - exists segments. split; [exact Hrun|exact Hcount].
Defined.

(** ** geocode.py: which requests can be built *)

Lemma possibly_strip_city_raises (address : value) :
  ¬ well_formed address →
  possibly_strip_city address =
    Err (match address with
         | VStr _ => ValueError_unpack 2 1
         | _ => AttributeError "split"
         end).
Proof.
  destruct address as [| | | |s| |]; try done. simpl. intros Hnot.
  unfold possibly_strip_city, split1, str_split1.
  rewrite partition_first_missing; [done|].
  intros Hin. apply Hnot. by apply bool_decide_pack.
Qed.

Lemma format_records_first_bad idx (good : list value) bad rest e :
  Forall well_formed good →
  possibly_strip_city bad = Err e →
  format_records idx (good ++ bad :: rest) = Err e.
Proof.
  intros Hgood Hbad. revert idx. induction Hgood as [|a good Ha _ IH]; intros idx; simpl.
  - by rewrite Hbad.
  - destruct (possibly_strip_city_returns a Ha) as [line ->]. simpl. by rewrite IH.
Qed.

Lemma format_records_well_formed idx (batch : list value) payload :
  format_records idx batch = Ok payload → Forall well_formed batch.
Proof.
  revert idx payload. induction batch as [|a batch IH]; intros idx payload; [constructor|].
  simpl. destruct (decide (well_formed a)) as [Ha|Ha].
  - destruct (possibly_strip_city a); simpl; [|done].
    destruct (format_records (idx + 1) batch) as [records|] eqn:Hrest; simpl; [|done].
    intros _. constructor; [done|by eapply IH].
  - by rewrite (possibly_strip_city_raises a Ha).
Qed.

(** X5: the request of a batch can be built exactly when every address
    is a string with a comma, and then it has one record per address;
    otherwise building it raises the error of the first address that is
    not: the unpacking [ValueError] for a string without a comma, an
    [AttributeError] for a value that is not a string. *)
Theorem X5_format_esri_batch_needs_well_formed_addresses (batch : list value) :
  ((∃ payload, format_esri_batch batch = Ok payload) ↔ Forall well_formed batch)
  ∧ (∀ payload, format_esri_batch batch = Ok payload → length payload = length batch)
  ∧ (∀ good bad rest,
       batch = (good ++ bad :: rest)%list →
       Forall well_formed good → ¬ well_formed bad →
       format_esri_batch batch =
         Err (match bad with
              | VStr _ => ValueError_unpack 2 1
              | _ => AttributeError "split"
              end)).
Proof.
  assert (∀ good bad rest,
            batch = (good ++ bad :: rest)%list →
            Forall well_formed good → ¬ well_formed bad →
            format_esri_batch batch =
              Err (match bad with
                   | VStr _ => ValueError_unpack 2 1
                   | _ => AttributeError "split"
                   end)) as Hfirst.
  { intros good bad rest -> Hgood Hbad.
    apply format_records_first_bad; [done|]. by apply possibly_strip_city_raises. }
  split_and!; [split| |done].
  - intros [payload Hfmt]. by eapply format_records_well_formed.
  - apply format_esri_batch_returns.
  - intros payload Hfmt. by apply format_records_spec in Hfmt as [? _].
Qed.

Lemma X5_format_esri_batch_needs_well_formed_addresses_witness :
  format_esri_batch [VStr "1 Main St, St. Louis"; VInt 7; VStr "2 Oak St"]
    = Err (AttributeError "split").
Proof.
  apply (proj2 (proj2 (X5_format_esri_batch_needs_well_formed_addresses
                         [VStr "1 Main St, St. Louis"; VInt 7; VStr "2 Oak St"]))
           [VStr "1 Main St, St. Louis"] (VInt 7) [VStr "2 Oak St"]).
  - reflexivity.
  - apply (bool_decide_unpack _). vm_compute. exact I.
  - intros H. exact H.
Defined.

(** ** geocode.py: a locality with a second comma *)

Lemma chars_app a b : chars (a +:+ b) = (chars a ++ chars b)%list.
Proof. induction a as [|c a IH]; [done|]. simpl. by rewrite <- IH. Qed.

Lemma partition_first_app sep before after :
  sep ∉ chars before →
  partition_first sep (before +:+ String sep after) = Some (before, after).
Proof.
  induction before as [|c before IH]; simpl.
  - intros _. by rewrite Ascii.eqb_refl.
  - intros [Hne Hnot]%not_elem_of_cons.
    destruct (Ascii.eqb c sep) eqn:Hc; [apply Ascii.eqb_eq in Hc; congruence|].
    by rewrite (IH Hnot).
Qed.

Lemma str_lower_keeps_comma s : comma ∈ chars s → comma ∈ chars (str_lower s).
Proof.
  induction s as [|c s IH]; simpl; [done|].
  intros [<-|Hin]%elem_of_cons; [left|right; auto].
Qed.

Lemma str_strip_keeps_comma s : comma ∈ chars s → comma ∈ chars (str_strip s).
Proof.
  destruct (str_strip_trims s) as (l & r & Heq & Hl & Hr & _).
  intros Hin. rewrite Heq, !chars_app, !elem_of_app in Hin.
  rewrite Forall_forall in Hl, Hr.
  destruct Hin as [Hin|[Hin|Hin]]; [by apply Hl in Hin|done|by apply Hr in Hin].
Qed.

(** X4: only the first comma splits. When the text after the first comma
    holds another comma, as in ["1 Main St, St. Louis, MO"], the locality
    is none of the three spellings and the address is returned
    unchanged. *)
Theorem X4_possibly_strip_city_second_comma_unchanged (street locality : string) :
  comma ∉ chars street →
  comma ∈ chars locality →
  possibly_strip_city (VStr (street +:+ String comma locality))
    = Ok (VStr (street +:+ String comma locality)).
Proof.
  intros Hstreet Hlocality.
  unfold possibly_strip_city, split1, str_split1.
  rewrite (partition_first_app _ _ _ Hstreet). simpl.
  pose proof (str_lower_keeps_comma _ (str_strip_keeps_comma _ Hlocality)) as Hin.
  set (loc := str_lower (str_strip locality)) in *.
  destruct (String.eqb loc "st. louis") eqn:E1.
  { apply String.eqb_eq in E1. rewrite E1 in Hin. apply (bool_decide_pack _) in Hin. by vm_compute in Hin. }
  destruct (String.eqb loc "st louis") eqn:E2.
  { apply String.eqb_eq in E2. rewrite E2 in Hin. apply (bool_decide_pack _) in Hin. by vm_compute in Hin. }
  destruct (String.eqb loc "saint louis") eqn:E3.
  { apply String.eqb_eq in E3. rewrite E3 in Hin. apply (bool_decide_pack _) in Hin. by vm_compute in Hin. }
  done.
Qed.

Lemma X4_possibly_strip_city_second_comma_unchanged_witness :
  possibly_strip_city (VStr "1 Main St, St. Louis, MO") = Ok (VStr "1 Main St, St. Louis, MO").
Proof.
  apply (X4_possibly_strip_city_second_comma_unchanged "1 Main St" " St. Louis, MO").
  - apply (bool_decide_unpack _). vm_compute. exact I.
  - apply (bool_decide_unpack _). vm_compute. exact I.
Defined.

(** ** geocode.py: how many results the cascade emits, and whose *)




Lemma regional_results_are_esri {Y} (t : list (obs Y)) r :
  r ∈ regional_results t → ∃ location, r = esri_result location.
Proof.
  unfold regional_results. intros (e & Hr & _)%list_elem_of_bind.
  destruct e as [payload response| |]; [|by apply elem_of_nil in Hr..].
  apply list_elem_of_fmap in Hr as (location & -> & _). by exists location.
Qed.

(** X7: every result the cascade emits comes from one of the two
    services and says which. It is either a regional result of the run,
    tagged ["stl_esri"] and with a non-empty matched name, or the first
    place of the answer to a global query of the run, tagged
    ["openstreetmap"]; a regional result with an empty name is never
    emitted. *)
Theorem X7_geocode_results_are_tagged_by_service
    (w : world) (past : list event) (addresses : list value) (r : GeocodeResult) :
  let t := (run w past (geocode addresses)).1 in
  Some r ∈ emitted t →
  (geocoder r = VStr "stl_esri"
   ∧ truthy (result_name r)
   ∧ r ∈ regional_results t)
  ∨ (geocoder r = VStr "openstreetmap"
     ∧ ∃ address response place,
         address ∈ addresses
         ∧ Got address response ∈ net_events t
         ∧ head response = Some place
         ∧ r = nominatim_result place).
Proof.
  intros t Hin.
  destruct (cascade_follows_batches w (batched addresses esri_batch_size) addresses past)
    as [Hpairs _].
  change (run w past (for_zip addresses _ cascade_step)).1 with t in Hpairs.
  apply list_elem_of_lookup in Hin as [i Hi].
  destruct (Forall2_lookup_r _ _ _ _ _ Hpairs Hi) as ([a r0] & Hpair & Hout).
  unfold consumed_pairs in Hpair.
  apply lookup_zip_with_Some in Hpair as (a' & r' & [= <- <-] & Ha & Hr).
  unfold cascade_output in Hout. simpl in Hout.
  destruct (truthy (result_name r0)) eqn:Hname.
  - injection Hout as ->. left.
    assert (r0 ∈ regional_results t) as Hreg by (apply list_elem_of_lookup; eauto).
    split_and!; [|by rewrite Hname|done].
    by destruct (regional_results_are_esri _ _ Hreg) as [location ->].
  - destruct Hout as (response & Hgot & Hanswer). right.
    unfold nominatim_answer in Hanswer.
    destruct (head response) as [place|] eqn:Hhead; [|done].
    injection Hanswer as ->. split; [done|].
    exists a, response, place. split_and!; [|done..].
    apply list_elem_of_lookup. eauto.
Qed.

Lemma X7_geocode_results_are_tagged_by_service_witness :
  let a := VStr "1 A St, Clayton" in
  geocoder (nominatim_result (sample_place a)) = VStr "stl_esri"
  ∨ geocoder (nominatim_result (sample_place a)) = VStr "openstreetmap".
Proof.
  intros a.
  destruct (X7_geocode_results_are_tagged_by_service unmatched_world [] [a]
              (nominatim_result (sample_place a))) as [(Htag & _)|(Htag & _)].
  - vm_compute. left.
  - left. exact Htag.
  - right. exact Htag.
Defined.

(** ** geocode.py: the pipeline around the cascade *)

(** X8: once every input record has passed the first pass, [main] talks
    to the services exactly as [geocode] does on the collected locations
    and ends as it does: it returns the records when [geocode] finishes
    and raises what [geocode] raises. The second pass adds no failure of
    its own; in particular it never indexes past the records. *)
Theorem X8_main_ends_as_geocode
    (w : world) (jsonl : list (gmap string value)) (addresses : list value)
    (tg : list (obs (option GeocodeResult))) (og : outcome unit) :
  Forall (λ data, record_error data = None) jsonl →
  Forall2 (λ data address, data !! "location" = Some address) jsonl addresses →
  run w [] (geocode addresses) = (tg, og) →
  match og with
  | Returned _ =>
      ∃ output : list (gmap string value),
        run w [] (main jsonl) = (exchanges tg, Returned output)
        ∧ length output = length jsonl
  | Raised e => run w [] (main jsonl) = (exchanges tg, Raised e)
  end.
Proof.
  intros Hvalid Hlocs Hrun.
  destruct (main_ends_as_geocode w jsonl addresses tg og Hvalid Hlocs Hrun) as [output Hmain].
  destruct og as [[]|e]; [|done].
  exists output. split; [done|].
  rewrite run_main in Hmain.
  destruct (first_pass_ok jsonl [] [] Hvalid) as (locations & _ & Hfirst).
  rewrite Hfirst in Hmain. simpl app in Hmain.
  destruct (run w [] (for_in _ _ _)) as [t' [[idx out']|e]] eqn:Hsecond; [|done].
  injection Hmain as _ ->.
  apply run_for_in_returned in Hsecond as (tg' & _ & Hfold & _).
  by apply enrich_fold in Hfold as [? _].
Qed.

Lemma X8_main_ends_as_geocode_witness :
  run reversing_world [] (main [ {[ "location" := VStr "2 Oak St" ]} ])
    = ([], Raised (ValueError_unpack 2 1)).
Proof.
  apply (X8_main_ends_as_geocode reversing_world
           [ {[ "location" := VStr "2 Oak St" ]} ] [VStr "2 Oak St"]
           [] (Raised (ValueError_unpack 2 1))).
  - constructor; [|constructor]. vm_compute. reflexivity.
  - constructor; [|constructor]. vm_compute. reflexivity.
  - vm_compute. reflexivity.
Defined.

Lemma record_error_with_result r (data : gmap string value) :
  record_error (with_result r data) = Some (ValueError_reserved RESERVED_FIELDS).
Proof.
  unfold record_error.
  assert (RESERVED_FIELDS ∩ dom (with_result r data) = RESERVED_FIELDS) as ->.
  { rewrite with_result_dom. apply set_eq. intros k.
    rewrite elem_of_intersection, elem_of_union. tauto. }
  rewrite decide_False; [done|].
  intros Hempty. assert ("lat" ∈ RESERVED_FIELDS) as Hin.
  { unfold RESERVED_FIELDS. rewrite !elem_of_union, !elem_of_singleton. tauto. }
  rewrite Hempty in Hin. by apply not_elem_of_empty in Hin.
Qed.

Lemma enriched_records_split (jsonl output : list (gmap string value))
    (results : list (option GeocodeResult)) :
  Forall (λ data, record_error data = None) jsonl →
  length output = length jsonl →
  (∀ i data, jsonl !! i = Some data →
     output !! i = Some (match results !! i with
                         | Some (Some r) => with_result r data
                         | _ => data
                         end)) →
  output ≠ jsonl →
  ∃ good bad rest,
    output = (good ++ bad :: rest)%list
    ∧ Forall (λ data, record_error data = None) good
    ∧ record_error bad = Some (ValueError_reserved RESERVED_FIELDS).
Proof.
  intros Hvalid. revert output results.
  induction Hvalid as [|data jsonl Hdata _ IH]; intros [|o output] results Hlen Hitems Hne;
    try discriminate; [done|].
  destruct results as [|[r|] results];
    pose proof (Hitems O data eq_refl) as Ho; simpl in Ho; injection Ho as ->.
  - destruct (IH output [] ltac:(by injection Hlen)) as (good & bad & rest & -> & ? & ?).
    + intros i d Hi. exact (Hitems (S i) d Hi).
    + congruence.
    + exists (data :: good), bad, rest. split_and!; [done|by constructor|done].
  - exists [], (with_result r data), output.
    split_and!; [done|constructor|apply record_error_with_result].
  - destruct (IH output results ltac:(by injection Hlen)) as (good & bad & rest & -> & ? & ?).
    + intros i d Hi. exact (Hitems (S i) d Hi).
    + congruence.
    + exists (data :: good), bad, rest. split_and!; [done|by constructor|done].
Qed.

(** X9: the output of the pipeline is not an input of the pipeline. When
    [main] has added the fields of at least one result, running [main]
    again on what it wrote fails in the first pass, before any exchange
    with a service, with the reserved-field error for all five fields. *)
Theorem X9_main_rejects_its_enriched_output
    (w w' : world) (jsonl output : list (gmap string value)) (t : list (obs Empty_set)) :
  run w [] (main jsonl) = (t, Returned output) →
  output ≠ jsonl →
  run w' [] (main output) = ([], Raised (ValueError_reserved RESERVED_FIELDS)).
Proof.
  rewrite run_main.
  destruct (fold_result collect ([], []) jsonl) as [[addrs out0]|e] eqn:Hfirst; [|done].
  pose proof (collect_valid _ _ _ Hfirst) as Hvalid.
  destruct (first_pass_ok jsonl [] [] Hvalid) as (locations & Hlocs & Hfirst').
  rewrite Hfirst' in Hfirst. simpl in Hfirst. injection Hfirst as <- <-.
  destruct (run w [] (for_in _ _ _)) as [t' [[idx out']|e]] eqn:Hsecond; [|done].
  intros [= -> ->] Hne.
  apply run_for_in_returned in Hsecond as (tg & Hrun & Hfold & _).
  apply enrich_fold in Hfold as [Hlen Hitems].
  destruct (enriched_records_split jsonl output (emitted tg) Hvalid Hlen)
    as (good & bad & rest & -> & Hgood & Hbad); [|done|].
  { intros i data Hi. rewrite (Hitems i data Hi).
    by rewrite decide_True, Nat.sub_0_r by lia. }
  by eapply main_invalid_record.
Qed.

Lemma X9_main_rejects_its_enriched_output_witness :
  ∃ t output,
    run reversing_world [] (main [ {[ "location" := VStr "100 S Broadway, St. Louis" ]} ])
      = (t, Returned output)
    ∧ run unmatched_world [] (main output)
        = ([], Raised (ValueError_reserved RESERVED_FIELDS)).
Proof.
  assert (∃ t output,
            run reversing_world [] (main [ {[ "location" := VStr "100 S Broadway, St. Louis" ]} ])
            = (t, Returned output)
            ∧ output ≠ [ {[ "location" := VStr "100 S Broadway, St. Louis" ]} ])
    as (t & output & Hrun & Hne).
  { do 2 eexists. split; [vm_compute; reflexivity|]. vm_compute. discriminate. }
  exists t, output. split; [exact Hrun|].
  exact (X9_main_rejects_its_enriched_output reversing_world unmatched_world _ _ _ Hrun Hne).
Defined.

(** ** geocode.py: what the regional service is asked *)

Lemma submitted_lines_app {Y} (t1 t2 : list (obs Y)) :
  submitted_lines (t1 ++ t2) = (submitted_lines t1 ++ submitted_lines t2)%list.
Proof. unfold submitted_lines. by rewrite net_events_app, bind_app. Qed.

Lemma format_records_lines idx (batch : list value) payload :
  format_records idx batch = Ok payload →
  Forall2 (λ address line, possibly_strip_city address = Ok line) batch (SingleLine <$> payload).
Proof.
  revert idx payload. induction batch as [|a batch IH]; intros idx payload; simpl.
  - intros [= <-]. constructor.
  - destruct (possibly_strip_city a) as [line|] eqn:Hline; simpl; [|done].
    destruct (format_records (idx + 1) batch) as [records|] eqn:Hrest; simpl; [|done].
    intros [= <-]. rewrite fmap_cons. constructor; [done|by eapply IH].
Qed.

Lemma submitted_lines_segments (batches : list (list value)) segments :
  Forall2 formatted_segment batches segments →
  Forall2 (λ address line, possibly_strip_city address = Ok line)
          (concat batches) (submitted_lines (concat segments)).
Proof.
  induction 1 as [|batch segment batches segments (payload & response & Hfmt & _ & ->) _ IH].
  - constructor.
  - change (concat (?x :: ?l)) with (x ++ concat l)%list.
    change (concat (batch :: batches)) with (batch ++ concat batches)%list.
    rewrite submitted_lines_app. apply Forall2_app; [|done].
    unfold submitted_lines. rewrite net_events_batch_segment. simpl.
    rewrite app_nil_r. by eapply format_records_lines.
Qed.

(** X10: when every address is a string with a comma, the regional
    geocoder run to its end submits every address to the regional service
    exactly once and in the order of the input: the lines of all its
    requests, one after the other, are the normalized addresses. *)
Theorem X10_geocode_stl_submits_each_address_once (w : world) (addresses : list value) :
  Forall well_formed addresses →
  Forall2 (λ address line, possibly_strip_city address = Ok line)
          addresses (submitted_lines (run w [] (geocode_stl addresses)).1).
Proof.
  intros Hwf.
  destruct (run_stl_batches w (batched addresses esri_batch_size) []
              (batched_well_formed _ Hwf)) as (segments & Hrun & Hsegs).
  change (run w [] (geocode_stl addresses))
    with (run w [] (for_each (batched addresses esri_batch_size) geocode_stl_batch)).
  rewrite Hrun. cbn [fst].
  rewrite <- (batched_concat esri_batch_size addresses) at 1
    by (unfold esri_batch_size; lia).
  by apply submitted_lines_segments.
Qed.

Lemma X10_geocode_stl_submits_each_address_once_witness :
  Forall2 (λ address line, possibly_strip_city address = Ok line)
          [VStr "1 Main St, St. Louis"; VStr "2 Oak St, Clayton"]
          (submitted_lines
             (run reversing_world []
                (geocode_stl [VStr "1 Main St, St. Louis"; VStr "2 Oak St, Clayton"])).1).
Proof.
  apply (X10_geocode_stl_submits_each_address_once reversing_world
           [VStr "1 Main St, St. Louis"; VStr "2 Oak St, Clayton"]).
  apply (bool_decide_unpack _). vm_compute. exact I.
Defined.

(** ** convert.py *)

Lemma dict_to_list_fits (fieldnames : list string) (line : list (string * value)) :
  Forall (λ key, key ∈ fieldnames) (convert.dict_keys line) →
  convert.dict_to_list fieldnames line
    = inr ((λ key, convert.dict_get line key (VStr EmptyString)) <$> fieldnames).
Proof.
  intros Hfits. unfold convert.dict_to_list.
  assert (filter (λ key, key ∉ fieldnames) (convert.dict_keys line) = []) as ->; [|done].
  induction Hfits as [|key keys Hkey _ IH]; [done|].
  rewrite filter_cons_False; [done|]. by intros Hnot.
Qed.


Lemma write_rows_all (fieldnames : list string) written (lines : list (list (string * value))) :
  Forall (λ line, Forall (λ key, key ∈ fieldnames) (convert.dict_keys line)) lines →
  convert.write_rows fieldnames written lines
    = ((written
        ++ ((λ line, (λ key, convert.dict_get line key (VStr EmptyString)) <$> fieldnames)
              <$> lines))%list,
       None).
Proof.
  intros Hall. revert written. induction Hall as [|line lines Hline _ IH]; intros written; simpl.
  - by rewrite app_nil_r.
  - rewrite (dict_to_list_fits _ _ Hline), IH, <- app_assoc. done.
Qed.


Lemma dict_keys_fit_themselves (line : list (string * value)) :
  Forall (λ key, key ∈ convert.dict_keys line) (convert.dict_keys line).
Proof. by apply Forall_forall. Qed.

(** X11: when no line after the first has a key the first line lacks,
    the conversion writes a rectangular table and ends normally: the
    header is the keys of the first line in their order, then one row
    per input line, in order, whose cell in the column of a key is the
    line's value for that key, or the empty string when the line has no
    such key. *)
Theorem X11_convert_writes_one_row_per_line
    (first_line : list (string * value)) (rest : list (list (string * value))) :
  Forall (λ line, Forall (λ key, key ∈ convert.dict_keys first_line) (convert.dict_keys line))
         rest →
  let fieldnames := convert.dict_keys first_line in
  let row line := (λ key, convert.dict_get line key (VStr EmptyString)) <$> fieldnames in
  convert.main (first_line :: rest)
    = ((VStr <$> fieldnames) :: (row <$> (first_line :: rest)), None)
  ∧ Forall (λ cells, length cells = length first_line)
           (convert.main (first_line :: rest)).1.
Proof.
  intros Hrest fieldnames row.
  assert (convert.main (first_line :: rest)
          = ((VStr <$> fieldnames) :: (row <$> (first_line :: rest)), None)) as Hmain.
  { unfold convert.main. fold fieldnames.
    rewrite write_rows_all; [done|]. constructor; [apply dict_keys_fit_themselves|done]. }
  split; [done|]. rewrite Hmain. cbn [fst]. constructor.
  - unfold fieldnames, convert.dict_keys. by rewrite !length_fmap.
  - apply Forall_fmap, Forall_forall. intros line _. unfold row, fieldnames, convert.dict_keys.
    simpl. by rewrite !length_fmap.
Qed.

Lemma X11_convert_writes_one_row_per_line_witness :
  convert.main [ [("name", VStr "Diner"); ("ward", VInt 7)]; [("ward", VInt 9)] ]
    = ([ [VStr "name"; VStr "ward"];
         [VStr "Diner"; VInt 7];
         [VStr EmptyString; VInt 9] ], None).
Proof.
  apply (X11_convert_writes_one_row_per_line
           [("name", VStr "Diner"); ("ward", VInt 7)] [ [("ward", VInt 9)] ]).
  apply (bool_decide_unpack _). vm_compute. exact I.
Defined.



Lemma dict_get_elem (line : list (string * value)) key v default :
  NoDup (convert.dict_keys line) → (key, v) ∈ line →
  convert.dict_get line key default = v.
Proof.
  induction line as [|[k v'] line IH]; simpl; [by intros _ ?%elem_of_nil|].
  intros [Hk Hnodup]%NoDup_cons [[= -> ->]|Hin]%elem_of_cons.
  - by rewrite String.eqb_refl.
  - destruct (String.eqb k key) eqn:Heq; [|by apply IH].
    apply String.eqb_eq in Heq as ->. destruct Hk.
    apply list_elem_of_fmap. by exists (key, v).
Qed.

(** X13: no value is lost or moved to another column. In a conversion
    that ends normally, every value of every line, the key of which the
    line has once, is written in the row of its line and in the column
    whose header is its key. *)
Theorem X13_convert_keeps_every_value_under_its_key
    (first_line : list (string * value)) (rest : list (list (string * value)))
    (i : nat) (line : list (string * value)) (key : string) (v : value) :
  Forall (λ line, Forall (λ key, key ∈ convert.dict_keys first_line) (convert.dict_keys line))
         rest →
  (first_line :: rest) !! i = Some line →
  NoDup (convert.dict_keys line) →
  (key, v) ∈ line →
  ∃ header cells j,
    (convert.main (first_line :: rest)).1 !! O = Some header
    ∧ (convert.main (first_line :: rest)).1 !! S i = Some cells
    ∧ header !! j = Some (VStr key)
    ∧ cells !! j = Some v.
Proof.
  intros Hrest Hline Hnodup Hin.
  assert (Forall (λ key, key ∈ convert.dict_keys first_line) (convert.dict_keys line)) as Hfits.
  { destruct i as [|i]; simpl in Hline.
    - injection Hline as <-. apply dict_keys_fit_themselves.
    - rewrite Forall_forall in Hrest. apply Hrest, list_elem_of_lookup. eauto. }
  assert (key ∈ convert.dict_keys first_line) as [j Hj]%list_elem_of_lookup.
  { rewrite Forall_forall in Hfits. apply Hfits, list_elem_of_fmap. by exists (key, v). }
  unfold convert.main. rewrite write_rows_all
    by (constructor; [apply dict_keys_fit_themselves|done]).
  cbn [fst].
  exists (VStr <$> convert.dict_keys first_line),
    ((λ key, convert.dict_get line key (VStr EmptyString)) <$> convert.dict_keys first_line), j.
  split_and!.
  - done.
  - change (([?h] ++ ?l)%list !! S i) with (l !! i). by rewrite list_lookup_fmap, Hline.
  - by rewrite list_lookup_fmap, Hj.
  - rewrite list_lookup_fmap, Hj. simpl. f_equal. by apply dict_get_elem.
Qed.

Lemma X13_convert_keeps_every_value_under_its_key_witness :
  ∃ header cells j,
    (convert.main [ [("name", VStr "Diner"); ("ward", VInt 7)]; [("ward", VInt 9)] ]).1 !! O
      = Some header
    ∧ (convert.main [ [("name", VStr "Diner"); ("ward", VInt 7)]; [("ward", VInt 9)] ]).1 !! 2%nat
      = Some cells
    ∧ header !! j = Some (VStr "ward")
    ∧ cells !! j = Some (VInt 9).
Proof.
  apply (X13_convert_keeps_every_value_under_its_key
           [("name", VStr "Diner"); ("ward", VInt 7)] [ [("ward", VInt 9)] ]
           1 [("ward", VInt 9)] "ward" (VInt 9)).
  - apply (bool_decide_unpack _). vm_compute. exact I.
  - reflexivity.
  - apply (bool_decide_unpack _). vm_compute. exact I.
  - left.
Defined.

(** ** restaurants.py *)

Lemma starts_with_spec sub s : starts_with sub s ↔ ∃ b, s = (sub +:+ b).
Proof.
  revert s. induction sub as [|a sub IH]; intros s; simpl.
  - split; [by exists s|done].
  - destruct s as [|c s]; simpl.
    + split; [done|]. by intros [b ?].
    + rewrite andb_True, IH. split.
      * intros [Hac [b ->]]. exists b. apply Is_true_eq_true, Ascii.eqb_eq in Hac. by subst.
      * intros [b [= -> ->]]. split; [|by exists b].
        apply Is_true_eq_left, Ascii.eqb_refl.
Qed.

(** [sub in s] holds exactly when [s] is some text, [sub], some text. *)
Lemma str_contains_spec sub s : str_contains sub s ↔ ∃ a b, s = (a +:+ sub +:+ b).
Proof.
  induction s as [|c s IH].
  - simpl. rewrite orb_false_r, starts_with_spec. split.
    + intros [b Hb]. by exists EmptyString, b.
    + intros ([|??] & b & Hb); [by exists b|done].
  - change (str_contains sub (String c s)) with (starts_with sub (String c s) || str_contains sub s).
    rewrite orb_True, starts_with_spec, IH. split.
    + intros [[b Hb]|(a & b & ->)]; [by exists EmptyString, b|by exists (String c a), b].
    + intros ([|c' a] & b & Hb); [left; by exists b|right].
      injection Hb as -> ->. by exists a, b.
Qed.

Lemma read_rows_ward rows f :
  restaurants.ward (foldl restaurants.read_row f rows) = restaurants.ward f.
Proof.
  revert f. induction rows as [|row rows IH]; intros f; simpl; [done|].
  rewrite IH. unfold restaurants.read_row. by repeat case_match.
Qed.

Lemma read_rows_name rows f :
  restaurants.name (foldl restaurants.read_row f rows) =
    default (restaurants.name f)
      (last (omap (λ row,
               if str_contains "Facility Name" (restaurants.text_of (restaurants.td1 row))
               then Some (restaurants.text_of (restaurants.td2 row)) else None) rows)).
Proof.
  revert f. induction rows as [|row rows IH]; intros f; [done|].
  change (foldl restaurants.read_row f (row :: rows))
    with (foldl restaurants.read_row (restaurants.read_row f row) rows).
  rewrite IH. simpl omap. unfold restaurants.read_row.
  destruct (str_contains "Facility Name" _) eqn:Hname.
  - rewrite last_cons. simpl. by destruct (last _).
  - by repeat case_match.
Qed.

Lemma read_rows_location rows f :
  restaurants.location (foldl restaurants.read_row f rows) =
    default (restaurants.location f)
      (last (omap (λ row,
               if negb (str_contains "Facility Name" (restaurants.text_of (restaurants.td1 row)))
                  && str_contains "Facility Location" (restaurants.text_of (restaurants.td1 row))
               then Some (restaurants.text_of (restaurants.td2 row)) else None) rows)).
Proof.
  revert f. induction rows as [|row rows IH]; intros f; [done|].
  change (foldl restaurants.read_row f (row :: rows))
    with (foldl restaurants.read_row (restaurants.read_row f row) rows).
  rewrite IH. simpl omap. unfold restaurants.read_row.
  destruct (str_contains "Facility Name" _) eqn:Hname; simpl; [done|].
  destruct (str_contains "Facility Location" _) eqn:Hloc; simpl.
  - rewrite last_cons. by destruct (last _).
  - by repeat case_match.
Qed.

(** X14: the facility read from a page. Each field holds the trimmed
    second cell of the last row whose trimmed first cell contains the
    field's label, and the empty string when no row does; a first cell
    that contains several labels counts for the first of them in the
    order name, location, type, phone, so that a row labelled with both
    name and location sets the name only. No row changes the ward. *)
Theorem X14_facility_fields_come_from_last_labelled_row
    (rows : list restaurants.table_row) (ward : string) :
  let key row := restaurants.text_of (restaurants.td1 row) in
  let value row := restaurants.text_of (restaurants.td2 row) in
  restaurants.ward (restaurants.read_rows rows ward) = ward
  ∧ restaurants.name (restaurants.read_rows rows ward) =
      default EmptyString
        (last (omap (λ row, if str_contains "Facility Name" (key row)
                            then Some (value row) else None) rows))
  ∧ restaurants.location (restaurants.read_rows rows ward) =
      default EmptyString
        (last (omap (λ row, if negb (str_contains "Facility Name" (key row))
                               && str_contains "Facility Location" (key row)
                            then Some (value row) else None) rows)).
Proof.
  intros key value. unfold restaurants.read_rows. split_and!.
  - by rewrite read_rows_ward.
  - by rewrite read_rows_name.
  - by rewrite read_rows_location.
Qed.



(** X16: the requests a ward page gives rise to. A link is followed
    exactly when it contains [Food-FacilityHistory] or
    [Food-Ward-ByName], once, in the order of the page; it goes to the
    facility callback when it contains the first marker, even if it
    contains the second too, and to the ward callback otherwise; every
    request carries the ward of the page. *)
Theorem X16_parse_ward_follows_marked_links (links : list string) (ward : string) :
  restaurants.href <$> restaurants.parse_ward links ward =
    filter (λ link, str_contains "Food-FacilityHistory" link
                    ∨ str_contains "Food-Ward-ByName" link) links
  ∧ Forall (λ request,
       restaurants.cb_ward request = ward
       ∧ (restaurants.to request = restaurants.ParseFacility ↔
          ∃ a b, restaurants.href request = (a +:+ "Food-FacilityHistory" +:+ b)))
     (restaurants.parse_ward links ward).
Proof.
  unfold restaurants.parse_ward. induction links as [|link links [IHh IHf]]; [done|].
  change ((link :: links) ≫= ?f) with (f link ++ (links ≫= f))%list.
  rewrite fmap_app, IHh, Forall_app, filter_cons. split; [|split; [|done]].
  - destruct (str_contains "Food-FacilityHistory" link) eqn:Hf.
    { rewrite decide_True by (left; done). done. }
    destruct (str_contains "Food-Ward-ByName" link) eqn:Hw.
    { rewrite decide_True by (right; done). done. }
    rewrite decide_False; [done|]. by intros [?|?].
  - destruct (str_contains "Food-FacilityHistory" link) eqn:Hf.
    { constructor; [|constructor]. simpl. split; [done|]. split; [|done].
      intros _. apply str_contains_spec. by rewrite Hf. }
    destruct (str_contains "Food-Ward-ByName" link) eqn:Hw; [|constructor].
    constructor; [|constructor]. simpl. split; [done|]. split; [done|].
    intros Hin%str_contains_spec. by rewrite Hf in Hin.
Qed.
